(** * Road detector: raster -> graph -> vector post-processing ([code/rd.py])

    A shallow embedding of the algorithmic core of [rd.py] and the
    properties its specification states about it.

    Conventions.
    - A raster (2-D numpy array of booleans) is a list of rows; the pixel
      [(i, j)] is row [i], column [j].
    - Python integers are [Z] or [nat]; numpy and Python floats are
      rationals [Q].  Where the node coordinates are scaled and rounded
      (lines 217-218) every operation is rounded to binary64, since that
      decides which way a coordinate half-way between two hundredths goes;
      elsewhere the arithmetic is exact.
    - A raised Python exception is the [Raise] case of [result].
    - Functions of numpy, scipy, PIL, scikit-image and shapely whose result
      the source only passes on are fields of the classes [World] and
      [Geometry]; what is assumed of them is stated in [GeometryLaws]. *)

From Stdlib Require Import ZArith QArith Qabs Qpower Lia Lqa List Ascii.
From Stdlib Require String.
From stdpp Require Import base list gmap strings pretty sorting relations.

Open Scope Z_scope.

(** * Part I: the program *)

(** ** Exceptions *)

Inductive exn : Type :=
| AssertionError
| ZeroDivisionError
| IndexError
| KeyError
| FileNotFoundError
| ValueError
| TypeError.

Inductive result (A : Type) : Type :=
| Ok (a : A)
| Raise (e : exn).
Arguments Ok {A} a.
Arguments Raise {A} e.

#[global] Instance result_ret : MRet result := λ A a, Ok a.

#[global] Instance result_bind : MBind result := λ A B k m,
  match m with
  | Ok a => k a
  | Raise e => Raise e
  end.

#[global] Instance result_fmap : FMap result := λ A B f m,
  match m with
  | Ok a => Ok (f a)
  | Raise e => Raise e
  end.

(** ** Rasters *)

Abbreviation pixel := (nat * nat)%type.
Abbreviation Raster := (list (list bool)).
Abbreviation Labels := (list (list nat)).

Definition height {A} (img : list (list A)) : nat := length img.
Definition width {A} (img : list (list A)) : nat := length (hd [] img).

(** [img[i, j]], [false] outside the array. *)
Definition pixel_on (img : Raster) (p : pixel) : bool :=
  default false (img !! p.1 ≫= (.!! p.2)).

(** [lab[i, j]], [0] (background) outside the array. *)
Definition label_at (lab : Labels) (p : pixel) : nat :=
  default 0%nat (lab !! p.1 ≫= (.!! p.2)).

(** All index pairs of an array in C (row-major) order. *)
Definition indices {A} (img : list (list A)) : list pixel :=
  i ← seq 0 (length img);
  (λ j : nat, (i, j)) <$> seq 0 (length (default [] (img !! i))).

(** [np.nonzero(img)]: the on-pixels in row-major order. *)
Definition nonzero (img : Raster) : list pixel :=
  filter (λ p, pixel_on img p = true) (indices img).

(** [np.pad(img, 1, 'constant', constant_values=1)] *)
Definition pad_ones (img : Raster) : Raster :=
  let w := width img in
  replicate (w + 2) true
    :: ((λ row, true :: row ++ [true]) <$> img) ++ [replicate (w + 2) true].

(** The Python slice [l[1:-1]]. *)
Definition slice_1_m1 {A} (l : list A) : list A :=
  take (length l - 2) (drop 1 l).

(** [img[1:-1, 1:-1]] *)
Definition crop1 {A} (img : list (list A)) : list (list A) :=
  slice_1_m1 <$> slice_1_m1 img.

(** ** Connected-component labelling

    [scipy.ndimage.label(img, np.ones((3,3)))[0]]: two on-pixels are
    neighbours when they differ by at most one row and one column
    (8-connectivity); every on-pixel receives the number of its connected
    component, components being numbered [1, 2, ...] in the order in which
    a row-major scan meets them; off-pixels receive [0]. *)

Definition adj8 (p q : pixel) : Prop :=
  (p.1 ≤ S q.1 ∧ q.1 ≤ S p.1 ∧ p.2 ≤ S q.2 ∧ q.2 ≤ S p.2)%nat.

#[global] Instance adj8_dec p q : Decision (adj8 p q).
Proof. unfold adj8. apply _. Defined.

(** One round of flood fill inside the vertex set [V]. *)
Definition grow (V S : gset pixel) : gset pixel :=
  S ∪ filter (λ q, set_Exists (adj8 q) S) V.

(** The pixels of [V] reachable from [p]. *)
Definition component (V : gset pixel) (p : pixel) : gset pixel :=
  Nat.iter (size V) (grow V) {[p]}.

Fixpoint label_scan (V : gset pixel) (todo : list pixel) (next : nat)
    (tbl : gmap pixel nat) : gmap pixel nat :=
  match todo with
  | [] => tbl
  | p :: rest =>
      match tbl !! p with
      | Some _ => label_scan V rest next tbl
      | None =>
          label_scan V rest (S next) (tbl ∪ gset_to_gmap next (component V p))
      end
  end.

Definition label_table (img : Raster) : gmap pixel nat :=
  label_scan (list_to_set (nonzero img)) (nonzero img) 1%nat ∅.

Definition label (img : Raster) : Labels :=
  let tbl := label_table img in
  imap (λ i row, imap (λ j (_ : bool), default 0%nat (tbl !! (i, j))) row) img.

(** ** ComponentFilter: [remove_small_components] *)

(** [np.sum(lab[s] == l)] for the bounding box [s] of label [l] given by
    [ndimage.find_objects]: every pixel labelled [l] lies in [s], so this
    is the number of pixels of the whole array labelled [l]. *)
Definition count_label (lab : Labels) (l : nat) : nat :=
  length (filter (λ x, x = l) (concat lab)).

(** [len(ndimage.find_objects(lab))]: the largest label. *)
Definition max_label (lab : Labels) : nat := max_list (concat lab).

(** A [pd.Series] of pixel counts indexed by label, in index order. *)
Abbreviation Series := (list (nat * nat)).

(** [num.sort_values()]: ascending by value.  pandas' default sort does
    not promise an order among equal values; nothing below relies on it. *)
Definition value_le (a b : nat * nat) : Prop := (a.2 ≤ b.2)%nat.

#[global] Instance value_le_dec a b : Decision (value_le a b).
Proof. unfold value_le. apply _. Defined.

Definition sort_values (num : Series) : Series := merge_sort value_le num.

(** [s.iloc[-1:]] *)
Definition iloc_last {A} (l : list A) : list A := drop (length l - 1) l.

(** [lab_mask[lab]]: fancy indexing of a boolean vector by the label array. *)
Definition index_by_label (lab_mask : list bool) (lab : Labels) : Raster :=
  (λ row : list nat, (λ l : nat, default false (lab_mask !! l)) <$> row) <$> lab.

(** [pd.Series(np.arange(max_lab + 1)).isin(index).values] *)
Definition isin_arange (max_lab : nat) (index : list nat) : list bool :=
  (λ l : nat, bool_decide (l ∈ index)) <$> seq 0 (S max_lab).

Definition remove_small_components (img : Raster) (stride : Z)
    (largest_only : bool) (min_length : Z) (padded_boundary : bool) : Raster :=
  let img := if padded_boundary then pad_ones img else img in
  let lab := label img in
  let num : Series :=
    (λ l : nat, (l, count_label lab l)) <$> seq 1 (max_label lab) in
  let img :=
    if bool_decide (length num ≠ 0%nat) then
      let max_lab := max_list (num.*1) in
      let num : Series :=
        filter (λ e : nat * nat, min_length ≤ Z.of_nat e.2 * stride) num in
      let num : Series :=
        if largest_only then iloc_last (sort_values num) else num in
      let lab_mask := isin_arange max_lab (num.*1) in
      index_by_label lab_mask lab
    else img in
  if padded_boundary then crop1 img else img.
(** ** Geometry (shapely) *)

Abbreviation Point := (Q * Q)%type.
(** [strn.coords] *)
Abbreviation Coords := (list (Q * Q)).

Inductive Shape : Type :=
| LineString (coords : Coords)
| MultiLineString (geoms : list Coords).

Definition as_MultiLineString (shape : Shape) : Shape :=
  match shape with
  | LineString coords => MultiLineString [coords]
  | _ => shape
  end.

(** [list(shape)] for a multi-part shape. *)
Definition geoms_of (shape : Shape) : list Coords :=
  match shape with
  | LineString coords => [coords]
  | MultiLineString geoms => geoms
  end.

(** The functions of shapely/GEOS used by [rd.py].  [length] is the
    binary64 number shapely reports; it is only compared with a threshold. *)
Class Geometry : Type := {
  linemerge : list Coords → Shape;
  simplify : Shape → Q → bool → Shape;
  length_of : Coords → Q;
  wkt : Coords → string
}.

#[global] Instance Q_eq_dec : EqDecision Q.
Proof. solve_decision. Defined.

#[global] Instance Q_inhabited : Inhabited Q := populate 0%Q.

(** Python's [==] on floats. *)
Definition point_eqb (p q : Point) : bool := Qeq_bool p.1 q.1 && Qeq_bool p.2 q.2.

(** [zip(strn.coords, strn.coords[1:])] *)
Definition segments (coords : Coords) : list (Point * Point) :=
  zip coords (tail coords).

(** [np.rint]: round to the nearest integer, ties to even. *)
Definition rint (q : Q) : Z :=
  let n := Qnum q in
  let d := Z.pos (Qden q) in
  let f := n / d in
  let r2 := 2 * (n mod d) in
  if r2 <? d then f
  else if d <? r2 then f + 1
  else if Z.even f then f else f + 1.

(** [np.round(q, decimals)] = [rint(q * 10**decimals) / 10**decimals] *)
Fixpoint pow10 (decimals : nat) : positive :=
  match decimals with
  | O => 1%positive
  | S d => (10 * pow10 d)%positive
  end.

Definition around (decimals : nat) (q : Q) : Q :=
  let scale := pow10 decimals in
  Qmake (rint (q * (Z.pos scale # 1))) scale.

Definition around_point (decimals : nat) (p : Point) : Point :=
  (around decimals p.1, around decimals p.2).

(** binary64 arithmetic.  [binary64 q] is the float nearest to the real
    [q], ties to the even significand of 53 bits: the result of one
    correctly rounded operation.  The exponent range is not modelled
    (neither overflow nor subnormals). *)
Definition ilog2 (q : Q) : Z :=
  let d := Z.log2 (Qnum q) - Z.log2 (Z.pos (Qden q)) in
  if Qle_bool (2 ^ d) q then d else d - 1.

Definition binary64 (q : Q) : Q :=
  if Qeq_bool q 0 then 0%Q else
  let ulp := (2 ^ (ilog2 (Qabs q) - 52))%Q in
  (inject_Z (rint (q / ulp)) * ulp)%Q.

(** [ndarray.round(decimals)] on a float array multiplies by
    [10**decimals] in binary64 before [rint]; the quotient by
    [10**decimals] is kept as the decimal it denotes. *)
Definition around_binary64 (decimals : nat) (x : Q) : Q :=
  let scale := pow10 decimals in
  Qmake (rint (binary64 (x * (Z.pos scale # 1)))) scale.

(** Python's order on tuples of two floats. *)
Definition point_leb (p q : Point) : bool :=
  match p.1 ?= q.1 with
  | Lt => true
  | Eq => Qle_bool p.2 q.2
  | Gt => false
  end%Q.

(** [tuple(sorted(edge))] for an edge of two points. *)
Definition sorted_pair (e : Point * Point) : Point * Point :=
  if point_leb e.1 e.2 then e else (e.2, e.1).

(** ** [ensure_no_duplicates] *)

Definition ensure_no_duplicates `{Geometry} (shape : Shape) : Shape :=
  let strings := geoms_of (as_MultiLineString shape) in
  let edges : list (Point * Point) := strn ← strings; segments strn in
  let edges := (λ e, (around_point 1 e.1, around_point 1 e.2)) <$> edges in
  let num_edges := length edges in
  let edges := remove_dups (sorted_pair <$> edges) in
  if bool_decide (length edges < num_edges)%nat
  then linemerge ((λ e : Point * Point, [e.1; e.2]) <$> edges)
  else shape.

(** ** SkeletonVectorizer: [vectorize_skeleton] *)

(** [cKDTree(xy).query_pairs(r)]: the index pairs [(i, j)], [i < j], of
    points at Euclidean distance at most [r].  The order in which Python
    lists the resulting set is not specified; a fixed one is taken here. *)
Definition within (r : Q) (p q : Point) : bool :=
  Qle_bool 0 r &&
  Qle_bool ((q.1 - p.1) * (q.1 - p.1) + (q.2 - p.2) * (q.2 - p.2)) (r * r).

Definition close_pair (xy : list Point) (r : Q) (ij : nat * nat) : bool :=
  match xy !! ij.1, xy !! ij.2 with
  | Some p, Some q => within r p q
  | _, _ => false
  end.

Definition query_pairs (xy : list Point) (r : Q) : list (nat * nat) :=
  filter (λ ij : nat * nat, close_pair xy r ij = true)
    (i ← seq 0 (length xy); (λ j : nat, (i, j)) <$> seq (S i) (length xy - S i)).

(** [a[idx]] for an index array [idx]. *)
Definition take_indices {A} `{Inhabited A} (a : list A) (idx : list nat) : list A :=
  (λ k : nat, a !!! k) <$> idx.

(** [a[mask]] for a boolean array [mask]. *)
Definition take_where {A} (a : list A) (mask : list bool) : list A :=
  (filter (λ x : A * bool, x.2 = true) (zip a mask)).*1.

(** [np.flatnonzero(mask)] *)
Definition flatnonzero (mask : list bool) : list nat :=
  filter (λ k : nat, mask !! k = Some true) (seq 0 (length mask)).

(** [np.sum((b - a)**2, axis=-1) == 2] for one pair *)
Definition is_diagonal_pair (a b : Z * Z) : bool :=
  (b.1 - a.1) ^ 2 + (b.2 - a.2) ^ 2 =? 2.

(** Lines 224-238: the mask of candidate edges that are kept. *)
Definition diagonal_keep_mask (unscaled_xy : list (Z * Z)) (u v : list nat)
    : list bool :=
  let unscaled_xy_set : gset (Z * Z) := list_to_set unscaled_xy in
  let unscaled_xy_u := take_indices unscaled_xy u in
  let unscaled_xy_v := take_indices unscaled_xy v in
  let is_diagonal := zip_with is_diagonal_pair unscaled_xy_u unscaled_xy_v in
  let keep_mask := negb <$> is_diagonal in
  foldl (λ (keep_mask : list bool) (k : nat),
           let a := unscaled_xy_u !!! k in
           let b := unscaled_xy_v !!! k in
           let c := (a.1, b.2) in
           let d := (b.1, a.2) in
           if bool_decide (c ∈ unscaled_xy_set) || bool_decide (d ∈ unscaled_xy_set)
           then <[k := false]> keep_mask
           else <[k := true]> keep_mask)
        keep_mask (flatnonzero is_diagonal).

(** The pixel graph: the nodes ([unscaled_xy] and [xy]) and the end
    points [u], [v] of its edges as indices of nodes. *)
Record Graph : Type := {
  nodes_unscaled : list (Z * Z);
  nodes_xy : list Point;
  edges_u : list nat;
  edges_v : list nat
}.

(** Lines 215-218: the on-pixels as [(x, y) = (column, row)] and their
    scaled coordinates, rounded to two decimals.  [unscaled_xy * stride] is
    an integer array; its product by the Python float
    [len(img) / (len(img) - 1)] is a binary64 array. *)
Definition scaled_nodes (img : Raster) (stride : Z)
    : result (list (Z * Z) * list Point) :=
  let ij := nonzero img in
  let unscaled_xy : list (Z * Z) :=
    (λ p : nat * nat, (Z.of_nat p.2, Z.of_nat p.1)) <$> ij in
  if bool_decide (length img = 1%nat) then Raise ZeroDivisionError else
  let factor : Q :=
    binary64 (inject_Z (Z.of_nat (length img))
              / inject_Z (Z.of_nat (length img) - 1)) in
  let xy : list Point :=
    (λ p : Z * Z,
       (binary64 (binary64 (inject_Z (p.1 * stride)) * factor),
        binary64 (binary64 (inject_Z (p.2 * stride)) * factor)))
      <$> unscaled_xy in
  let xy :=
    (λ p : Point, (around_binary64 2 p.1, around_binary64 2 p.2)) <$> xy in
  Ok (unscaled_xy, xy).

(** Lines 219-240: candidate edges and the edges kept.  [None] stands for
    the [ValueError] caught at line 221 (no candidate pair). *)
Definition skeleton_graph (img : Raster) (stride : Z) : result (option Graph) :=
  '(unscaled_xy, xy) ← scaled_nodes img stride;
  let pairs := query_pairs xy ((15 # 10) * inject_Z stride)%Q in
  if bool_decide (pairs = []) then Ok None else
  let u := pairs.*1 in
  let v := pairs.*2 in
  let keep_mask := diagonal_keep_mask unscaled_xy u v in
  let u := take_where u keep_mask in
  let v := take_where v keep_mask in
  Ok (Some {| nodes_unscaled := unscaled_xy; nodes_xy := xy;
              edges_u := u; edges_v := v |}).

(** Lines 242-244: [linemerge(lines).simplify(tolerance, ...)] *)
Definition merged_lines `{Geometry} (g : Graph) (tolerance : Q)
    (preserve_topology : bool) : Shape :=
  let lines : list Coords :=
    zip_with (λ p q : Point, [p; q])
      (take_indices (nodes_xy g) (edges_u g))
      (take_indices (nodes_xy g) (edges_v g)) in
  simplify (linemerge lines) tolerance preserve_topology.

(** [arity.setdefault(point, 0); arity[point] += 1] on a dictionary kept
    as an association list in insertion order. *)
Fixpoint arity_incr (arity : list (Point * nat)) (point : Point)
    : list (Point * nat) :=
  match arity with
  | [] => [(point, 1%nat)]
  | (k, c) :: rest =>
      if point_eqb k point then (k, S c) :: rest
      else (k, c) :: arity_incr rest point
  end.

(** [arity[point]] *)
Fixpoint arity_get (arity : list (Point * nat)) (point : Point) : result nat :=
  match arity with
  | [] => Raise KeyError
  | (k, c) :: rest => if point_eqb k point then Ok c else arity_get rest point
  end.

(** [coords[0]] and [coords[-1]] *)
Definition coords_first (coords : Coords) : result Point :=
  match head coords with Some p => Ok p | None => Raise IndexError end.
Definition coords_last (coords : Coords) : result Point :=
  match last coords with Some p => Ok p | None => Raise IndexError end.

(** Lines 257-258: the test that keeps a line string. *)
Definition keep_string `{Geometry} (arity : list (Point * nat))
    (remove_hair : Q) (strn : Coords) : result bool :=
  p0 ← coords_first strn;
  a0 ← arity_get arity p0;
  ends ← (if bool_decide (a0 ≠ 1%nat) then
            pn ← coords_last strn;
            an ← arity_get arity pn;
            Ok (bool_decide (an ≠ 1%nat))
          else Ok false);
  Ok (ends || Qle_bool remove_hair (length_of strn)).

(** Lines 246-260: removal of short dead ends. *)
Definition hair_removal `{Geometry} (shape : Shape) (remove_hair : Q)
    : result Shape :=
  let strings := geoms_of (as_MultiLineString shape) in
  let arity := foldl arity_incr [] (strn ← strings; strn) in
  good_strings ← foldl (λ (acc : result (list Coords)) (strn : Coords),
      good_strings ← acc;
      keep ← keep_string arity remove_hair strn;
      Ok (if keep : bool then good_strings ++ [strn] else good_strings))
    (Ok []) strings;
  Ok (MultiLineString good_strings).

Definition vectorize_skeleton `{Geometry} (img : Raster) (stride : Z)
    (tolerance : Q) (preserve_topology : bool) (remove_hair : Q)
    : result Shape :=
  g ← skeleton_graph img stride;
  match g with
  | None => Ok (linemerge [])
  | Some g =>
      let shape := merged_lines g tolerance preserve_topology in
      shape ← (if Qeq_bool remove_hair 0 then Ok shape
               else hair_removal shape remove_hair);
      Ok (ensure_no_duplicates shape)
  end.
(** ** Environment: files, model registry, image libraries *)

(** An RGB image as [np.array(Image.open(path))]: rows of pixels, each a
    triple of bytes. *)
Abbreviation Image := (list (list (Z * Z * Z))).
(** A probability raster. *)
Abbreviation Prob := (list (list Q)).

(** One entry of [model_database] (a parsed [model/*.yaml] file). *)
Record Config : Type := {
  training_set : string;
  automatic_clipping : option Z
}.

(** What [rd.py] reads from its surroundings and the image-processing
    functions it calls from PIL, numpy, scipy and scikit-image. *)
Class World : Type := {
  (** [Image.open(path)], [None] when there is no such file *)
  Image_open : string → option Image;
  (** [im.resize((n, n), Image.BILINEAR)] *)
  resize_bilinear : Image → nat → Image;
  model_database : gmap string Config;
  (** [os.listdir(path)] *)
  listdir : string → list string;
  (** [np.pad(img, n, mode='reflect')] *)
  pad_reflect : Raster → nat → Raster;
  (** [ndimage.binary_closing(img, ball_5)] *)
  binary_closing : Raster → Raster;
  (** [skimage.morphology.skeletonize] *)
  skeletonize : Raster → Raster
}.

(** ** Strings and paths *)

(** The character [chr(34)]. *)
Definition dquote : string := String "034"%char EmptyString.

(** [s.endswith(suffix)] *)
Definition endswith (s suffix : string) : bool :=
  String.prefix (String.rev suffix) (String.rev s).

(** [c in s] *)
Definition contains_char (c : ascii) (s : string) : bool :=
  bool_decide (c ∈ String.list_ascii_of_string s).

(** [s.rfind(c)] *)
Definition rfind (c : ascii) (s : list ascii) : option nat :=
  last (filter (λ k : nat, s !! k = Some c) (seq 0 (length s))).

(** [os.path.splitext(p)[0]] *)
Definition splitext_root (p : string) : string :=
  let l := String.list_ascii_of_string p in
  match rfind "."%char l with
  | None => p
  | Some dot =>
      let start := match rfind "/"%char l with Some s => S s | None => 0%nat end in
      if bool_decide (Exists (λ c : ascii, c ≠ "."%char) (take (dot - start) (drop start l)))
      then String.string_of_list_ascii (take dot l)
      else p
  end.

Definition STANDARD_PRODUCTS : gmap string string :=
  list_to_map [("PAN", "tif"); ("MUL", "tif"); ("MUL-PanSharpen", "tif");
               ("RGB-PanSharpen", "tif")].

Definition iid_path (iid product : string) (ext : option string)
    : result string :=
  let ext :=
    match ext with
    | Some e => Some e
    | None =>
        match STANDARD_PRODUCTS !! product with
        | Some e => Some e
        | None =>
            if endswith product "_png" || endswith product "_jpg"
            then Some (String.substring (String.length product - 3) 3 product)
            else None
        end
    end in
  match ext with
  | None => Raise AssertionError
  | Some ext =>
      let root :=
        if bool_decide (is_Some (STANDARD_PRODUCTS !! product))
        then "spacenet" else "computed" in
      Ok (root +:+ "/" +:+ product +:+ "/" +:+ product +:+ "_" +:+ iid
          +:+ "." +:+ ext)
  end.

(** ** ProbabilityFuser: [get_raster_probability] *)

(** [np.array(im) / np.float32(255)] followed by
    [P_rgb[:,:,0] + green_weight * P_rgb[:,:,1]] *)
Definition class_weighting (im : Image) (green_weight : Q) : Prob :=
  (λ row : list (Z * Z * Z),
     (λ px : Z * Z * Z,
        (inject_Z px.1.1 / 255 + green_weight * (inject_Z px.1.2 / 255))%Q)
     <$> row) <$> im.

Definition open_image `{World} (path : string) : result Image :=
  match Image_open path with
  | Some im => Ok im
  | None => Raise FileNotFoundError
  end.

(** Lines 174-189: the x2 upscale and class weighting, for a model of the
    given [stride]. *)
Definition upscale_prediction `{World} (stride upscale : Z)
    (iid model_product : string) (P_rgb : Image) (green_weight : Q)
    : result (Prob * Z) :=
  if bool_decide (stride `mod` upscale ≠ 0) then Raise AssertionError else
  let post_upscale_size := (length P_rgb * Z.to_nat upscale)%nat in
  let stride := stride `div` upscale in
  path ← iid_path iid model_product None;
  im ← open_image path;
  let P_rgb := resize_bilinear im post_upscale_size in
  Ok (class_weighting P_rgb green_weight, stride).

(** Lines 168-189: a single model. *)
Definition get_raster_probability_atomic `{World} (model_root iid : string)
    (green_weight : Q) : result (Prob * Z) :=
  let model_product := "rgb_pred_" +:+ model_root +:+ "_png" in
  path ← iid_path iid model_product None;
  P_rgb ← open_image path;
  let stride := 4 in
  cfg ← match model_database !! model_root with
        | Some cfg => Ok cfg
        | None => Raise KeyError
        end;
  let need_clipping := bool_decide (2 ≤ default 0 (automatic_clipping cfg)) in
  let upscale := 2 in
  upscale_prediction stride upscale iid model_product P_rgb green_weight.

(** [P + w * sub_P]; the initial [P = 0] is the empty raster. *)
Definition add_weighted (P : Prob) (w : Q) (sub_P : Prob) : result Prob :=
  let scaled : Prob := (λ row : list Q, (λ x : Q, (w * x)%Q) <$> row) <$> sub_P in
  if bool_decide (P = []) then Ok scaled
  else if bool_decide (length <$> P = length <$> sub_P)
  then Ok (zip_with (zip_with Qplus) P scaled)
  else Raise ValueError.

(** [get_raster_probability]: a model identifier with a space is a list
    of sub-models, fused with equal weights.  A sub-model identifier comes
    from [str.split] and holds no space, so the recursive calls of the
    source are calls of the single-model case.  With no sub-model at all
    the source returns [(0, None)]: the stride is an [option]. *)
Definition get_raster_probability `{World} (model_root iid : string)
    (green_weight : Q) : result (Prob * option Z) :=
  if contains_char " "%char model_root then
    let components := String.words model_root in
    let w : Q := (1 / inject_Z (Z.of_nat (length components)))%Q in
    foldl (λ (acc : result (Prob * option Z)) (submodel : string),
             '(P, stride) ← acc;
             '(sub_P, sub_stride) ←
               get_raster_probability_atomic submodel iid green_weight;
             P ← add_weighted P w sub_P;
             if bool_decide (stride = None ∨ stride = Some sub_stride)
             then Ok (P, Some sub_stride)
             else Raise AssertionError)
          (Ok ([], None)) components
  else
    '(P, stride) ← get_raster_probability_atomic model_root iid green_weight;
    Ok (P, Some stride).

(** ** RasterPreprocessor and [postprocess] *)

(** [l[n:-n]] for [n > 0] *)
Definition slice_n_mn {A} (n : nat) (l : list A) : list A :=
  take (length l - n - n) (drop n l).

(** [np.pad(a, n, 'edge')] of one axis *)
Definition pad_edge_1 {A} (n : nat) (l : list A) : list A :=
  match head l, last l with
  | Some x, Some y => replicate n x ++ l ++ replicate n y
  | _, _ => l
  end.

(** [np.pad(P, n, 'edge')] *)
Definition pad_edge {A} (n : nat) (P : list (list A)) : list (list A) :=
  pad_edge_1 n (pad_edge_1 n <$> P).

(** [binary_closing(np.pad(img, 9, mode='reflect'), ball_5)[9:-9, 9:-9]] *)
Definition binary_denoise `{World} (img : Raster) : Raster :=
  slice_n_mn 9 <$> slice_n_mn 9 (binary_closing (pad_reflect img 9)).

Definition postprocess `{World} `{Geometry} (model_root iid : string)
    : result Shape :=
  let threshold : Q := (288 # 1000) in
  let largest_only := false in
  let min_length := 21 in
  let margin := 4%nat in
  let remove_hair : Q := 14%Q in
  let green_weight : Q := (15 # 100) in
  let padded_boundary := false in
  '(P_wide, stride) ← get_raster_probability model_root iid green_weight;
  let P_wide := pad_edge margin P_wide in
  let img := skeletonize (binary_denoise
               ((λ row : list Q, (λ x : Q, Qle_bool threshold x) <$> row) <$> P_wide)) in
  let img := if bool_decide (margin ≠ 0%nat)
             then slice_n_mn margin <$> slice_n_mn margin img else img in
  stride ← match stride with Some s => Ok s | None => Raise TypeError end;
  let img := remove_small_components img stride largest_only min_length
               padded_boundary in
  vectorize_skeleton img stride (1 * inject_Z stride)%Q true remove_hair.

(** ** SubmissionWriter: [make_submission] *)

(** Lines 288-297: the body of the loop over the tiles; [rows] is the list
    being appended to. *)
Definition submission_rows `{World} `{Geometry} (model_root : string)
    (rows : list string) (iid : string) : result (list string) :=
  let iid := splitext_root iid in
  let ImageId := iid in
  shape ← postprocess model_root iid;
  let linestrings := geoms_of (as_MultiLineString shape) in
  if bool_decide (linestrings = [])
  then Ok (rows ++ [ImageId +:+ "," +:+ dquote +:+ "LINESTRING EMPTY" +:+ dquote])
  else Ok (foldl (λ (rows : list string) (linestring : Coords),
                    rows ++ [ImageId +:+ "," +:+ dquote +:+ wkt linestring
                             +:+ dquote])
                 rows linestrings).

(** [make_submission] returns the lines written to [csv_path]; the file is
    opened only after the loop, so an exception raised for a tile leaves no
    file behind. *)
Definition make_submission `{World} `{Geometry}
    (model_root fold csv_path : string) : result (list string) :=
  let iids := listdir "spacenet/Test" in
  rows ← foldl (λ (acc : result (list string)) (iid : string),
                  rows ← acc; submission_rows model_root rows iid)
               (Ok []) iids;
  Ok ("ImageId,WKT_Pix" :: rows).
(** * Part II: vocabulary of the specification *)

(** ** Pixels and connectivity *)

Definition at2 {A} (d : A) (a : list (list A)) (p : nat * nat) : A :=
  default d (a !! p.1 ≫= (.!! p.2)).

(** [p] is an on-pixel. *)
Definition on (img : Raster) (p : pixel) : Prop := pixel_on img p = true.

#[global] Instance on_dec img p : Decision (on img p).
Proof. unfold on. apply _. Defined.

(** Two neighbouring on-pixels, and the 8-connectivity they generate. *)
Definition neighbours (img : Raster) (p q : pixel) : Prop :=
  on img p ∧ on img q ∧ adj8 p q.
Definition connected (img : Raster) : relation pixel := rtc (neighbours img).

(** The component of [p] has [n] pixels. *)
Definition component_size (img : Raster) (p : pixel) (n : nat) : Prop :=
  ∃ C : list pixel, NoDup C ∧ (∀ q, q ∈ C ↔ connected img p q) ∧ length C = n.

(** [p] is an on-pixel of a component that is long enough: [n] pixels with
    [n * stride >= min_length]. *)
Definition qualifies (img : Raster) (stride min_length : Z) (p : pixel)
    (n : nat) : Prop :=
  on img p ∧ component_size img p n ∧ min_length ≤ Z.of_nat n * stride.

(** What a labelling of the components of [img] has to satisfy. *)
Record labelling (img : Raster) (lab : Labels) : Prop := {
  lab_indices : indices lab = indices img;
  lab_zero : ∀ p, label_at lab p = 0%nat ↔ ¬ on img p;
  lab_class : ∀ p q, on img p → on img q →
    label_at lab p = label_at lab q ↔ connected img p q;
  lab_used : ∀ l, (1 ≤ l ≤ max_label lab)%nat → ∃ p, label_at lab p = l
}.

(** The graph searched by the flood fill, its rounds, and the invariant of
    the labelling scan: the table labels whole components, distinct
    components differently, with the labels [1 .. next - 1]. *)
Definition edge (V : gset pixel) (p q : pixel) : Prop :=
  p ∈ V ∧ q ∈ V ∧ adj8 p q.

Definition flood (V : gset pixel) (p : pixel) (k : nat) : gset pixel :=
  Nat.iter k (grow V) {[p]}.

Record scan_inv (V : gset pixel) (next : nat) (tbl : gmap pixel nat) : Prop := {
  inv_next : (1 ≤ next)%nat;
  inv_range : ∀ q l, tbl !! q = Some l → q ∈ V ∧ (1 ≤ l < next)%nat;
  inv_class : ∀ q q' l l',
    tbl !! q = Some l → tbl !! q' = Some l' → l = l' ↔ rtc (edge V) q q';
  inv_closed : ∀ q q' l,
    tbl !! q = Some l → rtc (edge V) q q' → is_Some (tbl !! q');
  inv_used : ∀ l, (1 ≤ l < next)%nat → ∃ q, tbl !! q = Some l
}.

(** The labels that pass the filter of [remove_small_components]. *)
Definition kept_labels (lab : Labels) (stride : Z) (largest_only : bool)
    (min_length : Z) : list nat :=
  let num : Series :=
    (λ l : nat, (l, count_label lab l)) <$> seq 1 (max_label lab) in
  let num : Series :=
    filter (λ e : nat * nat, min_length ≤ Z.of_nat e.2 * stride) num in
  (if largest_only then iloc_last (sort_values num) else num).*1.

(** ** The padded frame *)

(** Raster coordinates to coordinates of the padded raster. *)
Definition shift (p : pixel) : pixel := (S p.1, S p.2).

Definition rectangular {A} (img : list (list A)) : Prop :=
  Forall (λ row, length row = width img) img.

(** The one-pixel frame added by [pad_ones], in padded coordinates. *)
Definition is_frame (img : Raster) (f : pixel) : Prop :=
  (f.1 ≤ S (height img) ∧ f.2 ≤ S (width img) ∧
   (f.1 = 0 ∨ f.1 = S (height img) ∨ f.2 = 0 ∨ f.2 = S (width img)))%nat.

(** An on-pixel in the first or last row or column of the raster. *)
Definition on_border (img : Raster) (b : pixel) : Prop :=
  on img b ∧
  (b.1 = 0 ∨ S b.1 = height img ∨ b.2 = 0 ∨ S b.2 = width img)%nat.

(** [p] belongs to a component that touches the raster border. *)
Definition touches_border (img : Raster) (p : pixel) : Prop :=
  ∃ b, on_border img b ∧ connected img p b.

(** ** The pixel graph *)

(** The node [(x, y)] of the pixel in row [y], column [x]. *)
Definition xy_of_pixel (p : nat * nat) : Z * Z := (Z.of_nat p.2, Z.of_nat p.1).

(** [c = (x, y)] is an on-pixel of the raster. *)
Definition on_xy (img : Raster) (c : Z * Z) : Prop :=
  0 ≤ c.1 ∧ 0 ≤ c.2 ∧ on img (Z.to_nat c.2, Z.to_nat c.1).

(** The coordinate lines 217-218 give to the pixel index [c] of a raster
    of [n] rows. *)
Definition scaled_coordinate (n stride c : Z) : Q :=
  around_binary64 2
    (binary64 (binary64 (inject_Z (c * stride))
               * binary64 (inject_Z n / inject_Z (n - 1)))).

(** The relative error bound of one binary64 rounding. *)
Definition u53 : Q := 1 # 9007199254740992.

(** The decision taken for a candidate edge between the pixels [a] and [b]. *)
Definition keep_edge (S : gset (Z * Z)) (a b : Z * Z) : bool :=
  if is_diagonal_pair a b
  then negb (bool_decide ((a.1, b.2) ∈ S) || bool_decide ((b.1, a.2) ∈ S))
  else true.

(** ** Line strings *)

(** All coordinates of a shape. *)
Definition vertices (shape : Shape) : list Point := concat (geoms_of shape).

(** Number of coordinates equal to [p] in a coordinate sequence: the
    arity of [p]. *)
Definition occurrences (pts : Coords) (p : Point) : nat :=
  length (filter (λ q : Point, point_eqb q p = true) pts).

(** The test of lines 257-258 in terms of arities: both end points have
    an arity other than 1, or the line string is long enough. *)
Definition is_good `{Geometry} (strings : list Coords) (remove_hair : Q)
    (strn : Coords) : bool :=
  let pts := concat strings in
  match head strn, last strn with
  | Some p0, Some pn =>
      (bool_decide (occurrences pts p0 ≠ 1%nat)
       && bool_decide (occurrences pts pn ≠ 1%nat))
      || Qle_bool remove_hair (length_of strn)
  | _, _ => false
  end.

(** All segments of a list of line strings, each as an unordered pair. *)
Definition unordered_segments (lines : list Coords) : list (Point * Point) :=
  sorted_pair <$> (lines ≫= segments).

(** The same after rounding to one decimal: the edge set of
    [ensure_no_duplicates]. *)
Definition rounded_segments (lines : list Coords) : list (Point * Point) :=
  sorted_pair
    <$> ((λ e : Point * Point, (around_point 1 e.1, around_point 1 e.2))
           <$> (lines ≫= segments)).

(** What is assumed of shapely: [linemerge] joins the given line strings
    end to end, neither inventing nor repeating a segment or a vertex, and
    [simplify] only drops vertices. *)
Class GeometryLaws `{Geometry} : Prop := {
  linemerge_segments lines :
    unordered_segments (geoms_of (linemerge lines)) ⊆+ unordered_segments lines;
  linemerge_vertices lines p :
    p ∈ vertices (linemerge lines) → p ∈ concat lines;
  simplify_vertices shape tolerance preserve_topology p :
    p ∈ vertices (simplify shape tolerance preserve_topology) →
    p ∈ vertices shape
}.

(** ** Submission rows *)

(** The rows of one tile, as the specification words them: the empty
    sentinel for no polyline, otherwise one row per polyline. *)
Definition tile_rows `{Geometry} (tile_id : string) (shape : Shape)
    : list string :=
  match geoms_of shape with
  | [] => [tile_id +:+ "," +:+ dquote +:+ "LINESTRING EMPTY" +:+ dquote]
  | linestrings =>
      (λ linestring : Coords,
         tile_id +:+ "," +:+ dquote +:+ wkt linestring +:+ dquote)
      <$> linestrings
  end.

(** ** Reference instances

    Executable stand-ins for the library functions, used to run the model
    on concrete inputs.  They satisfy the contracts stated below; they are
    not the algorithms of GEOS or scikit-image. *)

(** The coarsest line merge: every segment of non-zero length becomes a
    line string of its own. *)
Definition split_lines (lines : list Coords) : Shape :=
  MultiLineString
    ((λ e : Point * Point, [e.1; e.2])
       <$> filter (λ e : Point * Point, point_eqb e.1 e.2 = false)
                  (lines ≫= segments)).

(** Square root of a non-negative rational to six decimals (exact on
    squares of such numbers). *)
Definition qsqrt (q : Q) : Q :=
  Z.sqrt (Qnum q * Z.pos (Qden q) * 10 ^ 12) # (Qden q * 10 ^ 6).

Definition euclid_length (coords : Coords) : Q :=
  foldr Qplus 0%Q
    ((λ e : Point * Point,
        qsqrt ((e.2.1 - e.1.1) * (e.2.1 - e.1.1)
               + (e.2.2 - e.1.2) * (e.2.2 - e.1.2))%Q)
     <$> segments coords).

(** A decimal with at most two places, as WKT prints it. *)
Definition fmt_coord (q : Q) : string :=
  let v := rint (q * 100) in
  let a := Z.abs v in
  let frac := a `mod` 100 in
  (if bool_decide (v < 0) then "-" else EmptyString)
  +:+ pretty (a `div` 100)
  +:+ (if bool_decide (frac = 0) then EmptyString
       else if bool_decide (frac `mod` 10 = 0) then "." +:+ pretty (frac `div` 10)
       else if bool_decide (frac < 10) then ".0" +:+ pretty frac
       else "." +:+ pretty frac).

Definition fmt_wkt (coords : Coords) : string :=
  "LINESTRING ("
  +:+ String.concat ", " ((λ p : Point, fmt_coord p.1 +:+ " " +:+ fmt_coord p.2) <$> coords)
  +:+ ")".

Definition plain_geometry : Geometry := {|
  linemerge := split_lines;
  simplify := λ shape _ _, shape;
  length_of := euclid_length;
  wkt := fmt_wkt
|}.

(** Pixel replication instead of bilinear interpolation. *)
Definition resize_nearest (im : Image) (n : nat) : Image :=
  let h := length im in
  (λ i : nat,
     let row := default [] (im !! (i * h / n)%nat) in
     (λ j : nat, default (0, 0, 0) (row !! (j * length row / n)%nat)) <$> seq 0 n)
  <$> seq 0 n.

(** A frame of off-pixels instead of the mirrored border. *)
Definition pad_zeros (img : Raster) (n : nat) : Raster :=
  let w := (width img + n + n)%nat in
  replicate n (replicate w false)
  ++ ((λ row : list bool, replicate n false ++ row ++ replicate n false) <$> img)
  ++ replicate n (replicate w false).

Definition plain_world (files : gmap string Image) (models : gmap string Config)
    (tiles : list string) : World := {|
  Image_open := λ path, files !! path;
  resize_bilinear := resize_nearest;
  model_database := models;
  listdir := λ _, tiles;
  pad_reflect := pad_zeros;
  binary_closing := λ img, img;
  skeletonize := λ img, img
|}.
(** ** Example data *)

Definition blank (h w : nat) : Raster := replicate h (replicate w false).

Definition set_on (img : Raster) (p : nat * nat) : Raster :=
  alter (λ row : list bool, <[p.2 := true]> row) p.1 img.

(** An L of three pixels in an 18 x 18 raster: [(x, y) = (0, 0)], the
    corner [(1, 0)] and [(1, 1)]. *)
Definition L_skeleton : Raster :=
  foldl set_on (blank 18 18) [(0, 0); (0, 1); (1, 1)]%nat.

Definition L_graph : Graph := {|
  nodes_unscaled := [(0, 0); (1, 0); (1, 1)];
  nodes_xy := [(0 # 100, 0 # 100); (212 # 100, 0 # 100); (212 # 100, 212 # 100)];
  edges_u := [0; 1]%nat;
  edges_v := [1; 2]%nat
|}.

(** Three pixels on a diagonal of the same raster. *)
Definition diagonal_skeleton : Raster :=
  foldl set_on (blank 18 18) [(0, 0); (1, 1); (2, 2)]%nat.

(** Two opposite corner pixels of a 3 x 3 raster. *)
Definition corners : Raster :=
  [[true; false; false]; [false; false; false]; [false; false; true]].

(** A short spur and two long branches that meet at [(10, 0)]. *)
Definition spur : Coords := [(0, 0); (10, 0)]%Q.
Definition branch_up : Coords := [(10, 0); (10, 100)]%Q.
Definition branch_right : Coords := [(10, 0); (100, 0)]%Q.
Definition junction : Shape := MultiLineString [spur; branch_up; branch_right].

(** Two segments that coincide once rounded to one decimal. *)
Definition doubled : Shape :=
  MultiLineString [[(0, 0); (1, 0)]; [(104 # 100, 0); (5 # 100, 0)]]%Q.

(** A registry with one model, and two tiles: [a] with an L of three
    bright pixels, [b] black. *)
Definition black : Z * Z * Z := (0, 0, 0).
Definition red : Z * Z * Z := (255, 0, 0).

Definition image_L : Image :=
  (λ i : nat,
     (λ j : nat,
        if bool_decide ((i, j) ∈ [(3, 3); (3, 4); (4, 4)]%nat) then red else black)
     <$> seq 0 8)
  <$> seq 0 8.

Definition image_black : Image := replicate 8 (replicate 8 black).

Definition models : gmap string Config :=
  {[ "m" := {| training_set := "w"; automatic_clipping := None |} ]}.

Definition world_two_tiles : World :=
  plain_world
    (list_to_map [("computed/rgb_pred_m_png/rgb_pred_m_png_a.png", image_L);
                  ("computed/rgb_pred_m_png/rgb_pred_m_png_b.png", image_black)])
    models ["a.tif"; "b.tif"].

(** The same tiles when the prediction of [a] was never written. *)
Definition world_missing_a : World :=
  plain_world
    (list_to_map [("computed/rgb_pred_m_png/rgb_pred_m_png_b.png", image_black)])
    models ["a.tif"; "b.tif"].

(** The same when the tile without prediction is listed last. *)
Definition world_missing_last : World :=
  plain_world
    (list_to_map [("computed/rgb_pred_m_png/rgb_pred_m_png_b.png", image_black)])
    models ["b.tif"; "a.tif"].

(** The polylines of tile [a] in [world_two_tiles]. *)
Definition shape_a : Shape :=
  Eval vm_compute in
    match @postprocess world_two_tiles plain_geometry "m" "a" with
    | Ok shape => shape
    | Raise _ => MultiLineString []
    end.


(** * Part III: proofs *)

(** ** Connected components *)

Section Flood.
Context (V : gset pixel).

Lemma adj8_sym p q : adj8 p q → adj8 q p.
Proof. unfold adj8. lia. Qed.

Lemma adj8_refl p : adj8 p p.
Proof. unfold adj8. lia. Qed.

Lemma edge_sym p q : edge V p q → edge V q p.
Proof. unfold edge. intros (?&?&?). auto using adj8_sym. Qed.

Lemma rtc_edge_sym p q : rtc (edge V) p q → rtc (edge V) q p.
Proof.
  induction 1 as [|x y z Hxy _ IH]; [constructor|].
  eapply rtc_r; [exact IH|]. by apply edge_sym.
Qed.

Lemma rtc_edge_in p q : p ∈ V → rtc (edge V) p q → q ∈ V.
Proof. intros Hp H. induction H as [|x y z (?&?&?) _ IH]; auto. Qed.

Lemma elem_of_grow S q :
  q ∈ grow V S ↔ q ∈ S ∨ (q ∈ V ∧ ∃ x, x ∈ S ∧ adj8 q x).
Proof.
  unfold grow. rewrite elem_of_union, elem_of_filter. unfold set_Exists.
  split; (intros [?|[? ?]]; [by left|right]); [tauto|].
  split; [|done]. tauto.
Qed.

Lemma grow_incl S : S ⊆ grow V S.
Proof. intros q Hq. apply elem_of_grow. by left. Qed.

Lemma grow_within S : S ⊆ V → grow V S ⊆ V.
Proof. intros HS q [Hq|[Hq _]]%elem_of_grow; auto. Qed.

Lemma flood_0 p : flood V p 0 = {[p]}.
Proof. reflexivity. Qed.

Lemma flood_S p k : flood V p (S k) = grow V (flood V p k).
Proof. reflexivity. Qed.

Lemma flood_within p k : p ∈ V → flood V p k ⊆ V.
Proof.
  intros Hp. induction k as [|k IH].
  - rewrite flood_0. set_solver.
  - rewrite flood_S. by apply grow_within.
Qed.

Lemma flood_start p k : p ∈ flood V p k.
Proof.
  induction k as [|k IH]; [rewrite flood_0; set_solver|].
  rewrite flood_S. by apply grow_incl.
Qed.

Lemma flood_sound p k q : p ∈ V → q ∈ flood V p k → rtc (edge V) p q.
Proof.
  intros Hp. revert q. induction k as [|k IH]; intros q Hq.
  - rewrite flood_0 in Hq. apply elem_of_singleton in Hq as ->. constructor.
  - rewrite flood_S in Hq. apply elem_of_grow in Hq as [Hq|(Hq & x & Hx & Hadj)]; [by apply IH|].
    eapply rtc_r; [apply IH, Hx|].
    split_and!; [|done|by apply adj8_sym].
    by apply (flood_within p k).
Qed.

Lemma grow_fixed_closed S p q :
  grow V S = S → p ∈ S → rtc (edge V) p q → q ∈ S.
Proof.
  intros Hfix Hp H. induction H as [|x y z (Hx & Hy & Hxy) _ IH]; [done|].
  apply IH. rewrite <- Hfix. apply elem_of_grow. right.
  split; [done|]. exists x. split; [done|]. by apply adj8_sym.
Qed.

Lemma flood_progress p k :
  p ∈ V → grow V (flood V p k) = flood V p k ∨ (k + 1 ≤ size (flood V p k))%nat.
Proof.
  intros Hp. induction k as [|k [IH|IH]].
  - right. rewrite flood_0, size_singleton. lia.
  - left. rewrite flood_S. by rewrite IH.
  - destruct (decide (grow V (flood V p (S k)) = flood V p (S k))) as [Heq|Hne];
      [by left|right].
    assert (flood V p k ⊂ flood V p (S k)) as Hlt%subset_size.
    { rewrite flood_S. split; [apply grow_incl|]. intros Hsub.
      destruct (decide (grow V (flood V p k) = flood V p k)) as [Heq'|Hne'].
      - apply Hne. rewrite flood_S. by rewrite !Heq'.
      - apply Hne'. apply set_eq. intros x. split; [apply Hsub|apply grow_incl]. }
    lia.
Qed.

Lemma elem_of_component p q :
  p ∈ V → q ∈ component V p ↔ rtc (edge V) p q.
Proof.
  intros Hp. split; [by apply flood_sound|]. intros Hq.
  destruct (flood_progress p (size V) Hp) as [Hfix|Hbig].
  - eapply grow_fixed_closed; [exact Hfix| |exact Hq]. apply flood_start.
  - pose proof (subseteq_size _ _ (flood_within p (size V) Hp)). lia.
Qed.

Lemma scan_inv_empty : scan_inv V 1 ∅.
Proof.
  split; [lia|..]; try (intros; simplify_map_eq; fail). intros l ?. lia.
Qed.

Lemma lookup_new_component (tbl : gmap pixel nat) next p q l :
  p ∈ V →
  (tbl ∪ gset_to_gmap next (component V p)) !! q = Some l ↔
  tbl !! q = Some l ∨ (tbl !! q = None ∧ rtc (edge V) p q ∧ l = next).
Proof.
  intros Hp. rewrite lookup_union_Some_raw, lookup_gset_to_gmap_Some.
  rewrite elem_of_component by done. intuition congruence.
Qed.

Lemma scan_inv_step next tbl p :
  scan_inv V next tbl → p ∈ V → tbl !! p = None →
  scan_inv V (S next) (tbl ∪ gset_to_gmap next (component V p)).
Proof.
  intros [Hn Hr Hc Hcl Hu] Hp Hnone.
  pose proof (λ q l, lookup_new_component tbl next p q l Hp) as Hlk.
  split.
  - lia.
  - intros q l [Hq|(_ & Hq & ->)]%Hlk.
    + destruct (Hr _ _ Hq). split; [done|lia].
    + split; [by eapply rtc_edge_in|lia].
  - intros q q' l l' [Hq|(Hq & Hpq & ->)]%Hlk [Hq'|(Hq' & Hpq' & ->)]%Hlk.
    + by apply Hc.
    + split.
      * intros ->. destruct (Hr _ _ Hq). lia.
      * intros Hqq'. destruct (Hcl _ _ _ Hq Hqq') as [? ?]. congruence.
    + split.
      * intros <-. destruct (Hr _ _ Hq'). lia.
      * intros Hqq'%rtc_edge_sym.
        destruct (Hcl _ _ _ Hq' Hqq') as [? ?]. congruence.
    + split; [intros _|done].
      etrans; [apply rtc_edge_sym, Hpq|exact Hpq'].
  - intros q q' l [Hq|(Hq & Hpq & ->)]%Hlk Hqq'.
    + destruct (Hcl _ _ _ Hq Hqq') as [l' Hl'].
      exists l'. apply Hlk; auto.
    + destruct (tbl !! q') as [l'|] eqn:Hl'.
      * exists l'. apply Hlk; auto.
      * exists next. apply Hlk.
        right. split_and!; [done| |done]. by etrans.
  - intros l Hl. destruct (decide (l = next)) as [->|Hne].
    + exists p. apply Hlk.
      right. split_and!; [done|constructor|done].
    + destruct (Hu l) as [q Hq]; [lia|].
      exists q. apply Hlk; auto.
Qed.

Lemma label_scan_spec todo next tbl :
  scan_inv V next tbl → (∀ p, p ∈ todo → p ∈ V) →
  ∃ next', scan_inv V next' (label_scan V todo next tbl) ∧
    tbl ⊆ label_scan V todo next tbl ∧
    ∀ p, p ∈ todo → is_Some (label_scan V todo next tbl !! p).
Proof.
  revert next tbl. induction todo as [|p todo IH]; intros next tbl Hinv Htodo.
  - exists next. split_and!; [done..|]. intros p Hp. by apply elem_of_nil in Hp.
  - assert (∀ n t, scan_inv V n t → tbl ⊆ t → is_Some (t !! p) →
            ∃ next', scan_inv V next' (label_scan V todo n t) ∧
              tbl ⊆ label_scan V todo n t ∧
              ∀ q, q ∈ p :: todo → is_Some (label_scan V todo n t !! q))
      as Hgo.
    { intros n t Ht Hsub [l Hl].
      destruct (IH n t Ht) as (n' & Hinv' & Hsub' & Hall); [set_solver|].
      exists n'. split_and!; [done|by etrans|].
      intros q [->|Hq]%elem_of_cons; [|by apply Hall].
      exists l. eapply lookup_weaken; [exact Hl|exact Hsub']. }
    simpl. destruct (tbl !! p) as [l|] eqn:Hl.
    + apply Hgo; eauto.
    + apply Hgo.
      * apply scan_inv_step; [done|set_solver|done].
      * apply map_union_subseteq_l.
      * exists next. apply lookup_new_component; [set_solver|].
        right. split_and!; [done|constructor|done].
Qed.
End Flood.
Section Arrays.
Context {A : Type}.
Implicit Types (a : list (list A)) (p : pixel).

Lemma elem_of_indices a p :
  p ∈ indices a ↔ ∃ row, a !! p.1 = Some row ∧ (p.2 < length row)%nat.
Proof.
  unfold indices. rewrite list_elem_of_bind. split.
  - intros (i & Hp & Hi). apply elem_of_seq in Hi.
    apply list_elem_of_fmap in Hp as (j & -> & Hj). apply elem_of_seq in Hj.
    simpl. destruct (a !! i) as [row|] eqn:Hrow; simpl in *; [|lia].
    exists row. split; [done|lia].
  - intros (row & Hrow & Hlt). destruct p as [i j]. simpl in *.
    exists i. split.
    + apply list_elem_of_fmap. exists j. split; [done|].
      rewrite Hrow. simpl. apply elem_of_seq. lia.
    + apply elem_of_seq. apply lookup_lt_Some in Hrow. lia.
Qed.

Lemma NoDup_indices a : NoDup (indices a).
Proof.
  unfold indices. apply NoDup_bind.
  - intros i1 i2 p _ _ (j1 & -> & _)%list_elem_of_fmap
      (j2 & [=] & _)%list_elem_of_fmap.
    done.
  - intros i _. apply NoDup_fmap_2; [|apply NoDup_seq]. by intros j1 j2 [=].
  - apply NoDup_seq.
Qed.

Lemma indices_snoc a row :
  indices (a ++ [row]) =
  indices a ++ ((λ j : nat, (length a, j)) <$> seq 0 (length row)).
Proof.
  unfold indices. rewrite length_app. simpl.
  rewrite seq_app, bind_app. simpl. f_equal.
  - apply Forall_bind_ext, Forall_forall. intros i Hi%elem_of_seq.
    rewrite lookup_app_l by lia. done.
  - rewrite list_lookup_middle by done. simpl. by rewrite app_nil_r.
Qed.

Lemma row_as_lookups (d : A) (row : list A) :
  row = (λ j, default d (row !! j)) <$> seq 0 (length row).
Proof.
  induction row as [|x row IH] using rev_ind; [done|].
  rewrite length_app. simpl. rewrite seq_app, fmap_app. simpl. f_equal.
  - rewrite IH at 1. apply list_fmap_ext. intros i j Hj.
    apply lookup_seq in Hj as [-> Hj]. by rewrite lookup_app_l.
  - by rewrite list_lookup_middle.
Qed.

Lemma concat_at2 (d : A) a : concat a = at2 d a <$> indices a.
Proof.
  induction a as [|row a IH] using rev_ind; [done|].
  rewrite concat_app, indices_snoc, fmap_app. simpl. rewrite app_nil_r.
  f_equal.
  - rewrite IH. apply list_fmap_ext. intros i p Hp.
    apply list_elem_of_lookup_2, elem_of_indices in Hp as (r & Hr & _).
    unfold at2. rewrite lookup_app_l; [done|]. by eapply lookup_lt_Some.
  - rewrite <- list_fmap_compose. rewrite (row_as_lookups d row) at 1.
    apply list_fmap_ext. intros i j _. unfold at2. simpl.
    by rewrite list_lookup_middle.
Qed.

Lemma at2_outside (d : A) a p : p ∉ indices a → at2 d a p = d.
Proof.
  intros Hp. unfold at2. destruct (a !! p.1) as [row|] eqn:Hrow; [|done].
  simpl. destruct (row !! p.2) as [x|] eqn:Hx; [|done].
  exfalso. apply Hp, elem_of_indices. exists row. split; [done|].
  by eapply lookup_lt_Some.
Qed.
End Arrays.

Lemma elem_of_nonzero img p : p ∈ nonzero img ↔ on img p.
Proof.
  unfold nonzero, on. rewrite list_elem_of_filter. split; [tauto|].
  intros Hp. split; [done|]. destruct (decide (p ∈ indices img)); [done|].
  change (pixel_on img p) with (at2 false img p) in Hp.
  by rewrite at2_outside in Hp.
Qed.

Lemma NoDup_nonzero img : NoDup (nonzero img).
Proof. apply NoDup_filter, NoDup_indices. Qed.
Section LabelCorrect.
Context (img : Raster).
Let V : gset pixel := list_to_set (nonzero img).

Lemma elem_of_V p : p ∈ V ↔ on img p.
Proof. unfold V. by rewrite elem_of_list_to_set, elem_of_nonzero. Qed.

Lemma rtc_edge_connected p q : rtc (edge V) p q ↔ connected img p q.
Proof.
  split; (induction 1 as [|x y z (Hx & Hy & Hxy) _ IH]; [constructor|]);
    (eapply rtc_l; [|exact IH]); split_and!; try done; by apply elem_of_V.
Qed.

Lemma label_table_spec :
  ∃ next, scan_inv V next (label_table img) ∧
    ∀ p, on img p → is_Some (label_table img !! p).
Proof.
  destruct (label_scan_spec V (nonzero img) 1 ∅) as (next & Hinv & _ & Hall).
  - apply scan_inv_empty.
  - intros p Hp. by apply elem_of_list_to_set.
  - exists next. split; [done|]. intros p Hp. by apply Hall, elem_of_nonzero.
Qed.

Lemma label_table_off p : ¬ on img p → label_table img !! p = None.
Proof.
  intros Hp. destruct label_table_spec as (next & Hinv & _).
  destruct (label_table img !! p) as [l|] eqn:Hl; [|done].
  destruct (inv_range _ _ _ Hinv _ _ Hl) as [HV _].
  exfalso. by apply Hp, elem_of_V.
Qed.

Lemma indices_label : indices (label img) = indices img.
Proof.
  unfold indices, label. rewrite length_imap.
  apply Forall_bind_ext, Forall_forall. intros i _.
  rewrite list_lookup_imap. destruct (img !! i) as [row|]; simpl; [|done].
  by rewrite length_imap.
Qed.

Lemma label_at_label p :
  label_at (label img) p = default 0%nat (label_table img !! p).
Proof.
  destruct (decide (p ∈ indices img)) as [Hp|Hp].
  - apply elem_of_indices in Hp as (row & Hrow & Hlt).
    unfold label_at, label. rewrite list_lookup_imap, Hrow. simpl.
    rewrite list_lookup_imap.
    destruct (lookup_lt_is_Some_2 row p.2 Hlt) as [b ->]. simpl.
    by destruct p.
  - change (label_at (label img) p) with (at2 0%nat (label img) p).
    rewrite at2_outside by (by rewrite indices_label).
    rewrite label_table_off; [done|]. intros Hon%elem_of_nonzero.
    by apply list_elem_of_filter in Hon as [_ ?].
Qed.

Lemma label_labelling : labelling img (label img).
Proof.
  destruct label_table_spec as (next & Hinv & Hall). split.
  - apply indices_label.
  - intros p. rewrite label_at_label. split.
    + intros Hz Hon. destruct (Hall p Hon) as [l Hl]. rewrite Hl in Hz.
      simpl in Hz. subst. destruct (inv_range _ _ _ Hinv _ _ Hl). lia.
    + intros Hoff. by rewrite label_table_off.
  - intros p q Hp Hq. rewrite !label_at_label.
    destruct (Hall p Hp) as [l Hl], (Hall q Hq) as [l' Hl'].
    rewrite Hl, Hl'. simpl. rewrite <- rtc_edge_connected.
    by eapply inv_class.
  - intros l [Hl1 Hl2].
    assert (max_label (label img) < next)%nat as Hmax.
    { unfold max_label. pose proof (inv_next _ _ _ Hinv).
      destruct (decide (concat (label img) = [])) as [->|Hne]; [simpl; lia|].
      apply max_list_elem_of in Hne. rewrite (concat_at2 0%nat) in Hne at 2.
      apply list_elem_of_fmap in Hne as (q & -> & _).
      change (at2 0%nat (label img) q) with (label_at (label img) q).
      rewrite label_at_label.
      destruct (label_table img !! q) as [l'|] eqn:Hl'; simpl; [|lia].
      destruct (inv_range _ _ _ Hinv _ _ Hl'). lia. }
    destruct (inv_used _ _ _ Hinv l) as [q Hq]; [lia|].
    exists q. by rewrite label_at_label, Hq.
Qed.
End LabelCorrect.
Lemma component_size_unique img p n n' :
  component_size img p n → component_size img p n' → n = n'.
Proof.
  intros (C & HC & HCin & <-) (C' & HC' & HCin' & <-).
  apply Permutation_length, NoDup_Permutation; [done..|].
  intros q. by rewrite HCin, HCin'.
Qed.

Lemma connected_on img p q : on img p → connected img p q → on img q.
Proof. intros Hp H. induction H as [|x y z (_ & Hy & _) _ IH]; auto. Qed.

Lemma length_filter_fmap {A B} (f : A → B) (P : B → Prop)
    `{!∀ y, Decision (P y)} (l : list A) :
  length (filter P (f <$> l)) = length (filter (λ x, P (f x)) l).
Proof.
  induction l as [|x l IH]; [done|]. rewrite fmap_cons, !filter_cons.
  destruct (decide (P (f x))); simpl; by rewrite IH.
Qed.

#[global] Instance value_le_total : Total value_le.
Proof. intros a b. unfold value_le. lia. Qed.

#[global] Instance value_le_trans : Transitive value_le.
Proof. intros a b c. unfold value_le. lia. Qed.

Lemma iloc_last_sorted (num : Series) :
  num ≠ [] →
  ∃ e, iloc_last (sort_values num) = [e] ∧ e ∈ num ∧
       ∀ x, x ∈ num → (x.2 ≤ e.2)%nat.
Proof.
  intros Hne. unfold sort_values.
  pose proof (merge_sort_Permutation value_le num) as Hperm.
  pose proof (StronglySorted_merge_sort value_le num) as Hsort.
  destruct (merge_sort value_le num) as [|e s _] using rev_ind.
  { symmetry in Hperm. by apply Permutation_nil_r in Hperm. }
  exists e. split_and!.
  - unfold iloc_last. rewrite length_app. simpl.
    apply drop_app_length'. lia.
  - rewrite <- Hperm. set_solver.
  - intros x Hx. rewrite <- Hperm in Hx.
    apply elem_of_app in Hx as [Hx|Hx%list_elem_of_singleton].
    + eapply (StronglySorted_app_1_elem_of value_le); [exact Hsort|done|].
      set_solver.
    + by subst.
Qed.

Lemma iloc_last_nil : iloc_last (sort_values []) = [].
Proof. reflexivity. Qed.

Lemma remove_small_components_padded img stride lo m :
  remove_small_components img stride lo m true
  = crop1 (remove_small_components (pad_ones img) stride lo m false).
Proof. reflexivity. Qed.

Section Filter.
Context (img : Raster) (stride min_length : Z).

Let lab : Labels := label img.
Let Hlab : labelling img lab := label_labelling img.

Let K := max_label lab.
Let num : Series := (λ l : nat, (l, count_label lab l)) <$> seq 1 K.
Let kept : Series :=
  filter (λ e : nat * nat, min_length ≤ Z.of_nat e.2 * stride) num.

Lemma label_at_le_max p : (label_at lab p ≤ max_label lab)%nat.
Proof.
  destruct (decide (p ∈ indices lab)) as [Hp|Hp].
  - apply max_list_elem_of_le. rewrite (concat_at2 0%nat).
    apply list_elem_of_fmap. by exists p.
  - change (label_at lab p) with (at2 0%nat lab p).
    rewrite at2_outside by done. lia.
Qed.

Lemma on_label p : on img p ↔ (1 ≤ label_at lab p)%nat.
Proof.
  pose proof (lab_zero _ _ Hlab p) as Hz.
  destruct (decide (on img p)) as [Hon|Hoff].
  - split; [|done]. intros _. destruct (label_at lab p); [|lia].
    exfalso. by apply Hz.
  - split; [done|]. apply Hz in Hoff. rewrite Hoff. lia.
Qed.

Lemma indices_index_by_label (lab_mask : list bool) :
  indices (index_by_label lab_mask lab) = indices lab.
Proof.
  unfold indices, index_by_label. rewrite length_fmap.
  apply Forall_bind_ext, Forall_forall. intros i _.
  rewrite list_lookup_fmap. destruct (lab !! i) as [row|]; simpl; [|done].
  by rewrite length_fmap.
Qed.

Lemma pixel_on_index_by_label (M : nat) (idx : list nat) p :
  0%nat ∉ idx → (max_label lab ≤ M)%nat →
  pixel_on (index_by_label (isin_arange M idx) lab) p
  = bool_decide (label_at lab p ∈ idx).
Proof.
  intros H0 HM. destruct (decide (p ∈ indices lab)) as [Hp|Hp].
  - pose proof (label_at_le_max p) as Hle. revert Hle.
    apply elem_of_indices in Hp as (row & Hrow & Hlt).
    destruct (lookup_lt_is_Some_2 row p.2 Hlt) as [l Hl].
    unfold pixel_on, label_at, index_by_label.
    rewrite list_lookup_fmap, Hrow. simpl.
    rewrite list_lookup_fmap, Hl. simpl. intros Hle.
    unfold isin_arange. rewrite list_lookup_fmap.
    rewrite lookup_seq_lt by lia. done.
  - change (pixel_on ?a p) with (at2 false a p).
    change (label_at lab p) with (at2 0%nat lab p).
    rewrite !at2_outside; [|done|by rewrite indices_index_by_label].
    by rewrite bool_decide_eq_false_2.
Qed.

Lemma elem_of_num e :
  e ∈ num ↔ (1 ≤ e.1 ≤ K)%nat ∧ e.2 = count_label lab e.1.
Proof.
  unfold num. rewrite list_elem_of_fmap. split.
  - intros (l & -> & Hl%elem_of_seq). simpl. split; [lia|done].
  - intros [Hl He]. exists e.1. split; [destruct e; simpl in *; congruence|].
    apply elem_of_seq. lia.
Qed.

Lemma elem_of_kept e :
  e ∈ kept ↔ (1 ≤ e.1 ≤ K)%nat ∧ e.2 = count_label lab e.1 ∧
             min_length ≤ Z.of_nat e.2 * stride.
Proof. unfold kept. rewrite list_elem_of_filter, elem_of_num. tauto. Qed.

Lemma max_list_num : K ≠ 0%nat → max_list (num.*1) = K.
Proof.
  intros HK. unfold num. rewrite <- list_fmap_compose.
  rewrite (list_fmap_ext _ id (seq 1 K)) by done. rewrite list_fmap_id.
  apply Nat.le_antisymm.
  - destruct K as [|k]; [done|].
    pose proof (max_list_elem_of (seq 1 (S k)) ltac:(done)) as Hin.
    apply elem_of_seq in Hin. lia.
  - apply max_list_elem_of_le, elem_of_seq. lia.
Qed.

Lemma count_label_component p :
  on img p → component_size img p (count_label lab (label_at lab p)).
Proof.
  intros Hp. set (l := label_at lab p).
  exists (filter (λ q, label_at lab q = l) (indices lab)). split_and!.
  - apply NoDup_filter, NoDup_indices.
  - intros q. rewrite list_elem_of_filter. split.
    + intros [Hq _]. apply (lab_class _ _ Hlab); [done| |done].
      apply on_label. rewrite Hq. by apply on_label.
    + intros Hpq. pose proof (connected_on _ _ _ Hp Hpq) as Hq. split.
      * symmetry. by apply (lab_class _ _ Hlab).
      * rewrite (lab_indices _ _ Hlab).
        apply elem_of_nonzero in Hq. by apply list_elem_of_filter in Hq as [_ ?].
  - unfold count_label. rewrite (concat_at2 0%nat).
    by rewrite length_filter_fmap.
Qed.

Lemma kept_labels_sub lo l :
  l ∈ kept_labels lab stride lo min_length → ∃ e, e ∈ kept ∧ e.1 = l.
Proof.
  unfold kept_labels. fold K. fold num. fold kept.
  intros (e & -> & He)%list_elem_of_fmap. exists e. split; [|done].
  destruct lo; [|done].
  destruct (decide (kept = [])) as [Hk|Hk].
  - rewrite Hk in He. by apply elem_of_nil in He.
  - destruct (iloc_last_sorted kept Hk) as (e' & Heq & Hin & _).
    rewrite Heq in He. by apply list_elem_of_singleton in He as ->.
Qed.

Lemma pixel_on_unpadded lo p :
  pixel_on (remove_small_components img stride lo min_length false) p
  = bool_decide (label_at lab p ∈ kept_labels lab stride lo min_length).
Proof.
  assert (0%nat ∉ kept_labels lab stride lo min_length) as H0.
  { intros (e & He%elem_of_kept & Hz)%kept_labels_sub. lia. }
  assert (length num = K) as Hlen.
  { unfold num. by rewrite length_fmap, length_seq. }
  unfold remove_small_components. fold lab. fold K. fold num.
  rewrite Hlen. case_bool_decide as HK.
  - rewrite max_list_num by done.
    by rewrite pixel_on_index_by_label.
  - assert (K = 0%nat) as HK0 by lia.
    clear HK.
    rewrite bool_decide_eq_false_2.
    + destruct (pixel_on img p) eqn:Hon; [|done].
      apply on_label in Hon. pose proof (label_at_le_max p) as Hle.
      fold K in Hle. lia.
    + intros (e & He%elem_of_kept & _)%kept_labels_sub. lia.
Qed.

Lemma kept_qualifies p :
  (label_at lab p, count_label lab (label_at lab p)) ∈ kept ↔
  ∃ n, qualifies img stride min_length p n.
Proof.
  rewrite elem_of_kept. simpl. split.
  - intros ([Hl _] & _ & Hm). exists (count_label lab (label_at lab p)).
    apply on_label in Hl. split_and!; [done| |done].
    by apply count_label_component.
  - intros (n & Hon & Hsize & Hm).
    rewrite (component_size_unique _ _ _ _ Hsize
               (count_label_component p Hon)) in Hm.
    split_and!; [by apply on_label|apply label_at_le_max|done..].
Qed.

Lemma survives_all p :
  on (remove_small_components img stride false min_length false) p ↔
  ∃ n, qualifies img stride min_length p n.
Proof.
  unfold on at 1. rewrite pixel_on_unpadded, bool_decide_eq_true.
  rewrite <- kept_qualifies. unfold kept_labels. fold lab K num kept.
  rewrite list_elem_of_fmap. split.
  - intros (e & He1 & He). pose proof He as (_ & He2 & _)%elem_of_kept.
    destruct e as [l c]. simpl in *. by subst.
  - intros He. eexists. split; [|exact He]. done.
Qed.

Lemma survives_largest :
  ((∀ p n, ¬ qualifies img stride min_length p n) ∧
   (∀ p, ¬ on (remove_small_components img stride true min_length false) p))
  ∨
  (∃ p n, qualifies img stride min_length p n ∧
     (∀ q k, qualifies img stride min_length q k → (k ≤ n)%nat) ∧
     ∀ q, on (remove_small_components img stride true min_length false) q
          ↔ connected img p q).
Proof.
  assert (∀ q, on (remove_small_components img stride true min_length false) q
            ↔ label_at lab q ∈ (iloc_last (sort_values kept)).*1) as Hout.
  { intros q. unfold on. by rewrite pixel_on_unpadded, bool_decide_eq_true. }
  destruct (decide (kept = [])) as [Hk|Hk].
  - left. split.
    + intros p n Hq. assert (∃ n, qualifies img stride min_length p n) as He
        by eauto.
      apply kept_qualifies in He. rewrite Hk in He. by apply elem_of_nil in He.
    + intros p Hp%Hout. rewrite Hk in Hp. by apply elem_of_nil in Hp.
  - right. destruct (iloc_last_sorted kept Hk) as (e & Heq & Hin & Hmax).
    pose proof Hin as (Hl & Hc & Hm)%elem_of_kept.
    destruct (lab_used _ _ Hlab e.1 Hl) as [p Hp].
    assert (on img p) as Hon by (apply on_label; lia).
    exists p, e.2. split_and!.
    + split_and!; [done| |done]. rewrite Hc, <- Hp.
      by apply count_label_component.
    + intros q k Hq. assert (∃ n, qualifies img stride min_length q n) as He
        by eauto.
      apply kept_qualifies, Hmax in He. simpl in He.
      destruct Hq as (Hqon & Hsize & _).
      by rewrite (component_size_unique _ _ _ _ Hsize
                    (count_label_component q Hqon)).
    + intros q. rewrite Hout, Heq. simpl. rewrite list_elem_of_singleton.
      rewrite <- Hp. split.
      * intros Hq. apply (lab_class _ _ Hlab); [done| |done].
        apply on_label. rewrite Hq. by apply on_label.
      * intros Hpq. symmetry. apply (lab_class _ _ Hlab); [done| |done].
        by eapply connected_on.
Qed.
End Filter.
Lemma lookup_slice_1_m1 {A} (l : list A) i :
  (S (S i) < length l)%nat → slice_1_m1 l !! i = l !! S i.
Proof.
  intros Hi. unfold slice_1_m1.
  rewrite lookup_take_lt by lia. by rewrite lookup_drop.
Qed.

Lemma connected_sym img p q : connected img p q → connected img q p.
Proof.
  induction 1 as [|x y z (Hx & Hy & Hxy) _ IH]; [constructor|].
  eapply rtc_r; [exact IH|]. split_and!; [done..|]. by apply adj8_sym.
Qed.

Section Slices.
Context {A : Type}.

Lemma at2_crop1 (d : A) (a : list (list A)) (row : list A) i j :
  (S (S i) < length a)%nat → a !! S i = Some row →
  (S (S j) < length row)%nat →
  at2 d (crop1 a) (i, j) = at2 d a (S i, S j).
Proof.
  intros Hi Hrow Hj. unfold at2, crop1. cbn [fst snd].
  rewrite list_lookup_fmap, lookup_slice_1_m1, Hrow by done.
  cbn [fmap option_fmap option_map mbind option_bind].
  by rewrite lookup_slice_1_m1.
Qed.
End Slices.

Section Padding.
Context (img : Raster).
Let P : Raster := pad_ones img.
Local Abbreviation H := (length img).
Local Abbreviation W := (width img).

Lemma pad_row_0 : P !! 0%nat = Some (replicate (W + 2) true).
Proof. reflexivity. Qed.

Lemma pad_row_S i row :
  img !! i = Some row → P !! S i = Some (true :: row ++ [true]).
Proof.
  intros Hrow. unfold P, pad_ones. simpl.
  rewrite lookup_app_l by (rewrite length_fmap; by eapply lookup_lt_Some).
  by rewrite list_lookup_fmap, Hrow.
Qed.

Lemma pad_row_last : P !! S H = Some (replicate (W + 2) true).
Proof.
  unfold P, pad_ones. simpl.
  rewrite lookup_app_r by (by rewrite length_fmap).
  by rewrite length_fmap, Nat.sub_diag.
Qed.

Lemma length_pad : length P = S (S H).
Proof.
  unfold P, pad_ones. simpl.
  rewrite length_app, length_fmap. simpl. lia.
Qed.

Lemma pad_on_shift p : on img p → on P (shift p).
Proof.
  unfold on, pixel_on, shift. destruct p as [i j]. cbn [fst snd].
  destruct (img !! i) as [row|] eqn:Hrow; [|done].
  rewrite (pad_row_S _ _ Hrow). simpl. intros Hj.
  destruct (row !! j) as [b|] eqn:Hb; [|done].
  by rewrite (lookup_app_l_Some _ _ _ _ Hb).
Qed.

Lemma pixel_on_crop_pad (out : Raster) p :
  length <$> out = length <$> P → p ∈ indices img →
  pixel_on (crop1 out) p = pixel_on out (shift p).
Proof.
  intros Hshape (row & Hrow & Hj)%elem_of_indices. destruct p as [i j].
  cbn [fst snd] in *. pose proof (lookup_lt_Some _ _ _ Hrow) as Hi.
  assert (length out = S (S H)) as Hlen.
  { pose proof (f_equal length Hshape) as Hl.
    by rewrite !length_fmap, length_pad in Hl. }
  assert (∃ r, out !! S i = Some r ∧ length r = S (S (length row)))
    as (r & Hr & Hrlen).
  { pose proof (f_equal (.!! S i) Hshape) as Hl.
    rewrite !list_lookup_fmap, (pad_row_S _ _ Hrow) in Hl.
    destruct (out !! S i) as [r|]; [|done]. exists r. split; [done|].
    simpl in Hl. injection Hl as Hl. rewrite Hl, length_app. simpl. 
    lia. }
  apply (at2_crop1 false out r); [lia|done|lia].
Qed.

Context (Hrect : rectangular img).

Lemma frame_on f : is_frame img f → on P f.
Proof.
  destruct f as [i j]. unfold is_frame, on, pixel_on. cbn [fst snd].
  unfold height. intros (Hi & Hj & Hedge).
  destruct i as [|i].
  { rewrite pad_row_0. simpl. by rewrite lookup_replicate_2 by lia. }
  destruct (decide (i = H)) as [->|Hne].
  { rewrite pad_row_last. simpl. by rewrite lookup_replicate_2 by lia. }
  destruct (lookup_lt_is_Some_2 img i) as [row Hrow]; [lia|].
  rewrite (pad_row_S _ _ Hrow). simpl.
  destruct j as [|j]; [done|]. simpl.
  assert (length row = W) as Hlen.
  { eapply (proj1 (Forall_forall _ _) Hrect), list_elem_of_lookup_2, Hrow. }
  assert (j = W) as -> by lia.
  rewrite lookup_app_r by lia. by rewrite Hlen, Nat.sub_diag.
Qed.

Lemma frame_step f g :
  is_frame img f → is_frame img g → adj8 f g →
  connected P (0%nat, 0%nat) f → connected P (0%nat, 0%nat) g.
Proof.
  intros Hf Hg Hadj Hc. eapply rtc_r; [exact Hc|].
  split_and!; [by apply frame_on..|done].
Qed.

Lemma frame_top j : (j ≤ S W)%nat → connected P (0%nat, 0%nat) (0%nat, j).
Proof.
  induction j as [|j IH]; intros Hj; [constructor|].
  eapply frame_step; [| | |apply IH; lia];
    unfold is_frame, adj8; unfold height; simpl; lia.
Qed.

Lemma frame_left i : (i ≤ S H)%nat → connected P (0%nat, 0%nat) (i, 0%nat).
Proof.
  induction i as [|i IH]; intros Hi; [constructor|].
  eapply frame_step; [| | |apply IH; lia];
    unfold is_frame, adj8; unfold height; simpl; lia.
Qed.

Lemma frame_bottom j : (j ≤ S W)%nat → connected P (0%nat, 0%nat) (S H, j).
Proof.
  induction j as [|j IH]; intros Hj; [by apply frame_left|].
  eapply frame_step; [| | |apply IH; lia];
    unfold is_frame, adj8; unfold height; simpl; lia.
Qed.

Lemma frame_right i : (i ≤ S H)%nat → connected P (0%nat, 0%nat) (i, S W).
Proof.
  induction i as [|i IH]; intros Hi; [by apply frame_top|].
  eapply frame_step; [| | |apply IH; lia];
    unfold is_frame, adj8; unfold height; simpl; lia.
Qed.

Lemma frame_connected f : is_frame img f → connected P (0%nat, 0%nat) f.
Proof.
  destruct f as [i j]. intros (Hi & Hj & [Hz|[Hz|[Hz|Hz]]]);
    simpl in *; unfold height in *; subst.
  - by apply frame_top.
  - by apply frame_bottom.
  - by apply frame_left.
  - by apply frame_right.
Qed.

Lemma on_inside p : on img p → (p.1 < H ∧ p.2 < W)%nat.
Proof.
  intros Hp%elem_of_nonzero. apply list_elem_of_filter in Hp as [_ Hp].
  apply elem_of_indices in Hp as (row & Hrow & Hj).
  split; [by eapply lookup_lt_Some|].
  assert (length row = W) as <-; [|done].
  eapply (proj1 (Forall_forall _ _) Hrect), list_elem_of_lookup_2, Hrow.
Qed.

Lemma connected_shift p q :
  connected img p q → connected P (shift p) (shift q).
Proof.
  induction 1 as [|x y z (Hx & Hy & Hxy) _ IH]; [constructor|].
  eapply rtc_l; [|exact IH]. split_and!; [by apply pad_on_shift..|].
  unfold adj8, shift in *. simpl. lia.
Qed.

Lemma border_to_frame p :
  touches_border img p → connected P (0%nat, 0%nat) (shift p).
Proof.
  intros (b & [Hb Hedge] & Hpb).
  pose proof (on_inside b Hb) as [Hb1 Hb2].
  assert (∃ f, is_frame img f ∧ adj8 f (shift b)) as (f & Hf & Hadj).
  { destruct b as [i j]. unfold is_frame, adj8, shift, height in *.
    simpl in *. destruct Hedge as [->|[Hi|[->|Hj]]].
    - exists (0%nat, S j). simpl. lia.
    - exists (S (S i), S j). simpl. lia.
    - exists (S i, 0%nat). simpl. lia.
    - exists (S i, S (S j)). simpl. lia. }
  etrans; [by apply frame_connected|].
  eapply rtc_l; [|apply connected_shift, connected_sym, Hpb].
  split_and!; [by apply frame_on|by apply pad_on_shift|done].
Qed.

Lemma shift_not_frame p : on img p → ¬ is_frame img (shift p).
Proof.
  intros [Hi Hj]%on_inside. unfold is_frame, shift, height. simpl. lia.
Qed.
End Padding.

Lemma row_lengths_label img : length <$> label img = length <$> img.
Proof.
  unfold label. apply list_eq. intros i.
  rewrite !list_lookup_fmap, list_lookup_imap.
  destruct (img !! i) as [row|]; simpl; [|done]. by rewrite length_imap.
Qed.

Lemma row_lengths_unpadded img stride lo m :
  length <$> remove_small_components img stride lo m false = length <$> img.
Proof.
  unfold remove_small_components. case_bool_decide; [|done].
  rewrite <- (row_lengths_label img). unfold index_by_label.
  rewrite <- list_fmap_compose. apply list_fmap_ext. intros i row _. simpl.
  by rewrite length_fmap.
Qed.

Section PaddedFilter.
Context (img : Raster) (Hrect : rectangular img) (stride min_length : Z).
Let P : Raster := pad_ones img.
Let lab : Labels := label P.
Let L : nat := label_at lab (0%nat, 0%nat).

Lemma frame_origin : is_frame img (0%nat, 0%nat).
Proof. unfold is_frame. simpl. lia. Qed.

Lemma frame_label f : is_frame img f → label_at lab f = L.
Proof.
  intros Hf. symmetry.
  apply (lab_class _ _ (label_labelling P));
    [apply frame_on; [done|apply frame_origin]|by apply frame_on|].
  by apply frame_connected.
Qed.

Lemma border_label p : on img p → touches_border img p → label_at lab (shift p) = L.
Proof.
  intros Hp Hb. symmetry.
  apply (lab_class _ _ (label_labelling P));
    [apply frame_on; [done|apply frame_origin]|by apply pad_on_shift|].
  by apply border_to_frame.
Qed.

Lemma pixel_on_padded lo p :
  p ∈ indices img →
  pixel_on (remove_small_components img stride lo min_length true) p
  = bool_decide (label_at lab (shift p) ∈ kept_labels lab stride lo min_length).
Proof.
  intros Hp. rewrite remove_small_components_padded.
  rewrite (pixel_on_crop_pad img) by (done || apply row_lengths_unpadded).
  apply pixel_on_unpadded.
Qed.

Lemma merged_count (B F : list pixel) :
  NoDup B → (∀ p, p ∈ B → on img p ∧ touches_border img p) →
  NoDup F → (∀ f, f ∈ F → is_frame img f) →
  (length B + length F ≤ count_label lab L)%nat.
Proof.
  intros HB HBin HF HFin.
  unfold count_label. rewrite (concat_at2 0%nat), length_filter_fmap.
  rewrite <- (length_fmap shift B), <- length_app.
  apply submseteq_length, NoDup_submseteq.
  - apply NoDup_app. split_and!; [|  |done].
    + apply NoDup_fmap_2; [|done]. intros [??] [??] [=]. by subst.
    + intros x (p & -> & Hp)%list_elem_of_fmap Hx.
      destruct (HBin p Hp) as [Hon _].
      exact (shift_not_frame img Hrect p Hon (HFin _ Hx)).
  - intros x Hx. apply list_elem_of_filter.
    assert (on P x ∧ label_at lab x = L) as [Hon Hl].
    { apply elem_of_app in Hx as [(p & -> & Hp)%list_elem_of_fmap|Hx].
      - destruct (HBin p Hp). split; [by apply pad_on_shift|by apply border_label].
      - split; [apply frame_on; auto|apply frame_label; auto]. }
    split; [done|]. unfold lab. rewrite indices_label.
    apply elem_of_nonzero in Hon. by apply list_elem_of_filter in Hon as [_ ?].
Qed.

Lemma frame_label_pos : (1 ≤ L)%nat.
Proof.
  apply (on_label P). apply frame_on; [done|apply frame_origin].
Qed.

Lemma frame_label_kept :
  L ∈ kept_labels lab stride false min_length ↔
  min_length ≤ Z.of_nat (count_label lab L) * stride.
Proof.
  unfold kept_labels. rewrite list_elem_of_fmap. split.
  - intros (e & -> & He). apply (elem_of_kept P) in He as (_ & Hc & Hm).
    fold lab in Hc. by rewrite <- Hc.
  - intros Hm. exists (L, count_label lab L). split; [done|].
    apply (elem_of_kept P). cbn [fst snd].
    split_and!; [apply frame_label_pos|apply (label_at_le_max P)|done..].
Qed.
End PaddedFilter.
Section Masks.
Context {A : Type}.

Lemma foldl_insert_lookup (step : list A → nat → list A) (f : nat → A)
    (ks : list nat) (m : list A) k :
  (∀ m k, step m k = <[k := f k]> m) →
  foldl step m ks !! k
  = if decide (k ∈ ks) then (λ _, f k) <$> m !! k else m !! k.
Proof.
  intros Hstep. revert m. induction ks as [|k0 ks IH]; intros m; cbn [foldl].
  { destruct (decide (k ∈ [])) as [Hin|]; [|done]. by apply elem_of_nil in Hin. }
  rewrite IH, Hstep.
  destruct (decide (k ∈ ks)) as [Hin|Hin];
    destruct (decide (k ∈ k0 :: ks)) as [Hin'|Hin'].
  - destruct (decide (k = k0)) as [->|Hne].
    + destruct (decide (k0 < length m)%nat).
      * rewrite list_lookup_insert_eq by done.
        by destruct (lookup_lt_is_Some_2 m k0) as [x ->].
      * by rewrite list_insert_ge by lia.
    + by rewrite list_lookup_insert_ne.
  - exfalso. apply Hin'. by apply list_elem_of_further.
  - apply elem_of_cons in Hin' as [->|?]; [|done].
    destruct (decide (k0 < length m)%nat).
    + rewrite list_lookup_insert_eq by done.
      by destruct (lookup_lt_is_Some_2 m k0) as [x ->].
    + rewrite list_insert_ge by lia. by rewrite lookup_ge_None_2 by lia.
  - rewrite list_lookup_insert_ne; [done|]. intros ->. apply Hin'.
    apply list_elem_of_here.
Qed.

Lemma elem_of_take_where (l : list A) (mask : list bool) x :
  x ∈ take_where l mask ↔ ∃ k, l !! k = Some x ∧ mask !! k = Some true.
Proof.
  unfold take_where. rewrite list_elem_of_fmap. split.
  - intros ([y b] & -> & [Hb Hin]%list_elem_of_filter). simpl in *. subst.
    apply list_elem_of_lookup in Hin as [k Hk].
    apply lookup_zip_with_Some in Hk as (y' & b' & [= <- <-] & ? & ?). eauto.
  - intros (k & Hl & Hm). exists (x, true). split; [done|].
    apply list_elem_of_filter. split; [done|].
    apply list_elem_of_lookup. exists k.
    apply lookup_zip_with_Some. eauto.
Qed.

Lemma take_where_fmap {B} (f : A → B) (l : list A) (mask : list bool) :
  take_where (f <$> l) mask = f <$> take_where l mask.
Proof.
  unfold take_where. revert mask.
  induction l as [|x l IH]; intros [|b mask]; try done.
  cbn [fmap list_fmap zip zip_with]. rewrite !filter_cons. cbn [snd].
  destruct b.
  - rewrite !decide_True by done. cbn [fmap list_fmap fst]. f_equal. apply IH.
  - rewrite !decide_False by done. apply IH.
Qed.
End Masks.

Lemma flatnonzero_spec (mask : list bool) k :
  k ∈ flatnonzero mask ↔ mask !! k = Some true.
Proof.
  unfold flatnonzero. rewrite list_elem_of_filter, elem_of_seq. split; [tauto|].
  intros Hk. split; [done|]. apply lookup_lt_Some in Hk. lia.
Qed.

Lemma lookup_take_indices {A} `{Inhabited A} (a : list A) (idx : list nat) k i x :
  idx !! k = Some i → a !! i = Some x → take_indices a idx !! k = Some x.
Proof.
  intros Hk Hi. unfold take_indices. rewrite list_lookup_fmap, Hk. simpl.
  f_equal. by apply list_lookup_total_correct.
Qed.

Lemma diagonal_keep_mask_lookup (uxy : list (Z * Z)) (u v : list nat) k i j a b :
  u !! k = Some i → v !! k = Some j → uxy !! i = Some a → uxy !! j = Some b →
  diagonal_keep_mask uxy u v !! k = Some (keep_edge (list_to_set uxy) a b).
Proof.
  intros Hu Hv Ha Hb. unfold diagonal_keep_mask.
  set (S := list_to_set uxy : gset (Z * Z)).
  set (xu := take_indices uxy u). set (xv := take_indices uxy v).
  set (diag := zip_with is_diagonal_pair xu xv).
  assert (xu !! k = Some a) as Hxu by by eapply lookup_take_indices.
  assert (xv !! k = Some b) as Hxv by by eapply lookup_take_indices.
  assert (diag !! k = Some (is_diagonal_pair a b)) as Hdiag.
  { unfold diag. apply lookup_zip_with_Some. eauto. }
  rewrite (foldl_insert_lookup _
             (λ k, negb (bool_decide (((xu !!! k).1, (xv !!! k).2) ∈ S)
                         || bool_decide (((xv !!! k).1, (xu !!! k).2) ∈ S)))).
  2: { intros m k'. by destruct (_ || _). }
  rewrite (list_lookup_total_correct _ _ _ Hxu), (list_lookup_total_correct _ _ _ Hxv).
  rewrite list_lookup_fmap, Hdiag. simpl. unfold keep_edge.
  destruct (is_diagonal_pair a b) eqn:Hd.
  - rewrite decide_True by by apply flatnonzero_spec. done.
  - rewrite decide_False; [done|]. rewrite flatnonzero_spec. congruence.
Qed.

Lemma scaled_nodes_Ok img stride uxy xy :
  scaled_nodes img stride = Ok (uxy, xy) →
  uxy = xy_of_pixel <$> nonzero img ∧ length xy = length uxy.
Proof.
  unfold scaled_nodes. case_bool_decide; [done|]. intros [= <- <-].
  split; [done|]. by rewrite !length_fmap.
Qed.

Lemma elem_of_unscaled img (c : Z * Z) :
  c ∈ xy_of_pixel <$> nonzero img ↔ on_xy img c.
Proof.
  rewrite list_elem_of_fmap. unfold on_xy. split.
  - intros ([i j] & -> & Hp%elem_of_nonzero). unfold xy_of_pixel. simpl.
    rewrite !Nat2Z.id. split_and!; [lia..|done].
  - intros (Hx & Hy & Hon). exists (Z.to_nat c.2, Z.to_nat c.1).
    split; [|by apply elem_of_nonzero].
    unfold xy_of_pixel. simpl. rewrite !Z2Nat.id by done. by destruct c.
Qed.

Lemma elem_of_query_pairs xy r i j :
  (i, j) ∈ query_pairs xy r ↔
  (i < j < length xy)%nat ∧ close_pair xy r (i, j) = true.
Proof.
  unfold query_pairs. rewrite list_elem_of_filter, list_elem_of_bind. split.
  - intros (Hc & i' & (j' & [= -> ->] & Hj%elem_of_seq)%list_elem_of_fmap
             & Hi%elem_of_seq).
    split; [lia|done].
  - intros [Hij Hc]. split; [done|]. exists i. split.
    + apply list_elem_of_fmap. exists j. split; [done|]. apply elem_of_seq. lia.
    + apply elem_of_seq. lia.
Qed.

Lemma skeleton_graph_edges img stride uxy xy g :
  scaled_nodes img stride = Ok (uxy, xy) →
  skeleton_graph img stride = Ok (Some g) →
  let pairs := query_pairs xy ((15 # 10) * inject_Z stride)%Q in
  nodes_unscaled g = uxy ∧ nodes_xy g = xy ∧
  zip (edges_u g) (edges_v g)
  = take_where pairs (diagonal_keep_mask uxy (pairs.*1) (pairs.*2)).
Proof.
  intros Hn. unfold skeleton_graph. rewrite Hn. simpl.
  case_bool_decide; [done|]. intros [= <-]. simpl. split_and!; [done..|].
  rewrite !take_where_fmap. apply zip_fst_snd.
Qed.

Lemma point_eqb_refl p : point_eqb p p = true.
Proof. unfold point_eqb. by rewrite !Qeq_bool_refl. Qed.

Lemma point_eqb_sym p q : point_eqb p q = point_eqb q p.
Proof. unfold point_eqb. by rewrite (Qeq_bool_comm p.1), (Qeq_bool_comm p.2). Qed.

Lemma point_eqb_trans p q r :
  point_eqb p q = true → point_eqb q r = true → point_eqb p r = true.
Proof.
  unfold point_eqb. rewrite !andb_true_iff.
  intros [H1 H2] [H3 H4]. split; eapply Qeq_bool_trans; eauto.
Qed.

Lemma point_eqb_congr p q r :
  point_eqb p q = true → point_eqb p r = point_eqb q r.
Proof.
  intros Hpq. destruct (point_eqb q r) eqn:Hqr.
  - by eapply point_eqb_trans.
  - destruct (point_eqb p r) eqn:Hpr; [|done].
    rewrite <- Hqr. symmetry. eapply point_eqb_trans; [|exact Hpr].
    by rewrite point_eqb_sym.
Qed.

Lemma arity_get_incr arity q p :
  arity_get (arity_incr arity q) p
  = if point_eqb q p
    then match arity_get arity p with Ok c => Ok (S c) | Raise _ => Ok 1%nat end
    else arity_get arity p.
Proof.
  induction arity as [|[k c] arity IH]; simpl.
  { by destruct (point_eqb q p). }
  destruct (point_eqb k q) eqn:Hkq; simpl.
  - rewrite (point_eqb_congr _ _ p Hkq). by destruct (point_eqb q p).
  - destruct (point_eqb k p) eqn:Hkp; [|done].
    destruct (point_eqb q p) eqn:Hqp; [|done].
    rewrite point_eqb_sym in Hqp.
    by rewrite (point_eqb_trans _ _ _ Hkp Hqp) in Hkq.
Qed.

Lemma arity_get_foldl pts arity p :
  arity_get (foldl arity_incr arity pts) p
  = match arity_get arity p with
    | Ok c => Ok (c + occurrences pts p)%nat
    | Raise _ =>
        if bool_decide (occurrences pts p = 0%nat) then Raise KeyError
        else Ok (occurrences pts p)
    end.
Proof.
  revert arity. induction pts as [|q pts IH]; intros arity; simpl.
  { destruct (arity_get arity p) as [c|e] eqn:Hget.
    - f_equal. unfold occurrences. simpl. lia.
    - clear -Hget. induction arity as [|[k c] arity IH]; simpl in *; [congruence|].
      destruct (point_eqb k p); [done|auto]. }
  rewrite IH, arity_get_incr. unfold occurrences. rewrite filter_cons.
  destruct (point_eqb q p) eqn:Hqp.
  - rewrite decide_True by done. simpl.
    destruct (arity_get arity p); f_equal; lia.
  - rewrite decide_False by congruence. done.
Qed.

Lemma arity_get_all pts p :
  p ∈ pts → arity_get (foldl arity_incr [] pts) p = Ok (occurrences pts p).
Proof.
  intros Hp. rewrite arity_get_foldl. simpl. rewrite bool_decide_eq_false_2; [done|].
  unfold occurrences. intros Hz%length_zero_iff_nil.
  eapply (elem_of_nil p). rewrite <- Hz. apply list_elem_of_filter.
  split; [apply point_eqb_refl|done].
Qed.

Lemma bind_id_concat {A} (ls : list (list A)) : (l ← ls; l) = concat ls.
Proof. induction ls as [|l ls IH]; [done|]. cbn. by rewrite IH. Qed.

Lemma elem_of_concat {A} (x : A) (ls : list (list A)) :
  x ∈ concat ls ↔ ∃ l, l ∈ ls ∧ x ∈ l.
Proof.
  induction ls as [|l ls IH]; simpl.
  - split; [by intros ?%elem_of_nil|]. by intros (l & ?%elem_of_nil & _).
  - rewrite elem_of_app, IH. split.
    + intros [?|(l' & ? & ?)]; [exists l|exists l']; split; try done;
        [left|by right].
    + intros (l' & [->|?]%elem_of_cons & ?); [by left|right; eauto].
Qed.

Section Hair.
Context `{Geometry}.

Lemma keep_string_Ok (strings : list Coords) (remove_hair : Q) strn :
  strn ∈ strings → strn ≠ [] →
  keep_string (foldl arity_incr [] (concat strings)) remove_hair strn
  = Ok (is_good strings remove_hair strn).
Proof.
  intros Hs Hne. set (pts := concat strings).
  assert (∀ p, p ∈ strn → arity_get (foldl arity_incr [] pts) p
                          = Ok (occurrences pts p)) as Hget.
  { intros p Hp. apply arity_get_all, elem_of_concat. eauto. }
  destruct strn as [|p0 rest]; [done|].
  destruct (last (p0 :: rest)) as [pn|] eqn:Hlast.
  2: { by apply last_None in Hlast. }
  assert (pn ∈ p0 :: rest) as Hpn.
  { apply last_Some in Hlast as [l' ->]. apply elem_of_app. right. left. }
  unfold keep_string, is_good, coords_first, coords_last. rewrite Hlast.
  fold pts. simpl. rewrite (Hget p0) by left. simpl.
  destruct (bool_decide (occurrences pts p0 ≠ 1%nat)); simpl; [|done].
  by rewrite (Hget pn Hpn).
Qed.

Lemma hair_removal_filter (shape : Shape) (remove_hair : Q) :
  let strings := geoms_of (as_MultiLineString shape) in
  Forall (λ strn, strn ≠ []) strings →
  hair_removal shape remove_hair
  = Ok (MultiLineString
          (filter (λ strn, is_good strings remove_hair strn = true) strings)).
Proof.
  intros strings Hne. unfold hair_removal. fold strings.
  rewrite bind_id_concat. set (arity := foldl arity_incr [] _).
  enough (∀ l acc, (∀ strn, strn ∈ l → strn ∈ strings) →
    foldl (λ (acc : result (list Coords)) (strn : Coords),
      good_strings ← acc;
      keep ← keep_string arity remove_hair strn;
      Ok (if keep : bool then good_strings ++ [strn] else good_strings)) (Ok acc) l
    = Ok (acc ++ filter (λ strn, is_good strings remove_hair strn = true) l))
    as Hloop.
  { by rewrite Hloop. }
  induction l as [|strn l IH]; intros acc Hl; cbn [foldl].
  { by rewrite app_nil_r. }
  assert (strn ∈ strings) as Hs by (apply Hl; left).
  assert (strn ≠ []) as Hnil.
  { by apply (proj1 (Forall_forall _ _) Hne). }
  cbn [mbind result_bind]. unfold arity.
  rewrite (keep_string_Ok strings remove_hair strn Hs Hnil).
  cbn [mbind result_bind]. rewrite filter_cons.
  destruct (is_good strings remove_hair strn).
  - rewrite decide_True by done. rewrite IH.
    + by rewrite <- app_assoc.
    + intros s' Hs'. apply Hl. by right.
  - rewrite decide_False by done. apply IH.
    intros s' Hs'. apply Hl. by right.
Qed.
End Hair.
(** *** Rounding *)

Lemma rint_bound (q : Q) :
  2 * Z.abs (rint q * Z.pos (Qden q) - Qnum q) ≤ Z.pos (Qden q).
Proof.
  unfold rint. destruct q as [n d]. simpl.
  pose proof (Z.div_mod n (Z.pos d) ltac:(lia)) as Hdm.
  pose proof (Z.mod_pos_bound n (Z.pos d) ltac:(lia)) as Hm.
  set (f := n `div` Z.pos d) in *. set (r := n `mod` Z.pos d) in *.
  repeat case_match; rewrite ?Z.ltb_lt, ?Z.ltb_ge in *; lia.
Qed.

Lemma rint_integer (k : Z) (s : positive) : rint ((k # s) * (Z.pos s # 1)) = k.
Proof.
  unfold rint. simpl. rewrite Pos.mul_1_r.
  rewrite Z.div_mul, Z.mod_mul by lia. simpl.
  by destruct (0 <? Z.pos s) eqn:E; [|apply Z.ltb_ge in E; lia].
Qed.

Lemma around_fixed decimals (k : Z) :
  around decimals (k # pow10 decimals) = k # pow10 decimals.
Proof. unfold around. by rewrite rint_integer. Qed.

Lemma around_idemp decimals q :
  around decimals (around decimals q) = around decimals q.
Proof. apply around_fixed. Qed.

Lemma around_error decimals (q : Q) :
  (Qabs (around decimals q - q) <= 1 # (2 * pow10 decimals))%Q.
Proof.
  unfold around. set (s := pow10 decimals).
  pose proof (rint_bound (q * (Z.pos s # 1))) as Hb.
  set (k := rint _) in *. destruct q as [n d]. simpl in Hb.
  rewrite Pos.mul_1_r in Hb.
  apply Qabs_Qle_condition. unfold Qle, Qminus, Qplus, Qopp. simpl.
  split; nia.
Qed.

Lemma around_point_idemp decimals p :
  around_point decimals (around_point decimals p) = around_point decimals p.
Proof. unfold around_point. simpl. by rewrite !around_idemp. Qed.

(** *** Unordered pairs *)

Lemma point_leb_total p q : point_leb p q = false → point_leb q p = true.
Proof.
  unfold point_leb. rewrite <- (Qcompare_antisym p.1 q.1).
  destruct (p.1 ?= q.1)%Q eqn:E; simpl; try done.
  intros Hle. apply Qle_bool_iff. 
  destruct (Qle_bool p.2 q.2) eqn:E2; [done|].
  destruct (Qlt_le_dec q.2 p.2) as [Hlt|Hle']; [by apply Qlt_le_weak|].
  apply Qle_bool_iff in Hle'. congruence.
Qed.

Lemma sorted_pair_idemp e : sorted_pair (sorted_pair e) = sorted_pair e.
Proof.
  unfold sorted_pair. destruct (point_leb e.1 e.2) eqn:E; simpl.
  - by rewrite E.
  - by rewrite (point_leb_total _ _ E).
Qed.

Lemma remove_dups_length {A} `{EqDecision A} (l : list A) :
  (length (remove_dups l) ≤ length l)%nat.
Proof.
  induction l as [|x l IH]; simpl; [done|].
  destruct (decide_rel _ _ _); simpl; lia.
Qed.

Lemma remove_dups_same_length {A} `{EqDecision A} (l : list A) :
  ¬ (length (remove_dups l) < length l)%nat → NoDup l.
Proof.
  induction l as [|x l IH]; simpl; [constructor|].
  pose proof (remove_dups_length l).
  destruct (decide_rel _ _ _); simpl; intros Hlen; [lia|].
  constructor; [done|]. apply IH. lia.
Qed.

Lemma submseteq_NoDup' {A} (l k : list A) : l ⊆+ k → NoDup k → NoDup l.
Proof.
  intros (k' & Hk)%submseteq_Permutation. rewrite Hk.
  by intros [? _]%NoDup_app.
Qed.

Lemma geoms_of_as_Multi shape : geoms_of (as_MultiLineString shape) = geoms_of shape.
Proof. by destruct shape. Qed.

Lemma segments_endpoints (strn : Coords) a b :
  (a, b) ∈ segments strn → a ∈ strn ∧ b ∈ strn.
Proof.
  unfold segments. intros Hin. split.
  - by eapply elem_of_zip_l.
  - apply elem_of_zip_r in Hin. destruct strn; [done|]. by right.
Qed.

Lemma elem_of_rounded_segments lines e :
  e ∈ rounded_segments lines →
  ∃ a b, a ∈ concat lines ∧ b ∈ concat lines ∧
    (e = (around_point 1 a, around_point 1 b)
     ∨ e = (around_point 1 b, around_point 1 a)).
Proof.
  unfold rounded_segments.
  intros (e' & -> & ([a b] & -> & Hab)%list_elem_of_fmap)%list_elem_of_fmap.
  apply list_elem_of_bind in Hab as (strn & Hab & Hstrn).
  apply segments_endpoints in Hab as [Ha Hb].
  exists a, b. split_and!; [apply elem_of_concat; eauto..|].
  unfold sorted_pair. simpl. destruct (point_leb _ _); auto.
Qed.

Lemma rounded_segments_fixed lines e :
  e ∈ rounded_segments lines →
  sorted_pair e = e ∧ around_point 1 e.1 = e.1 ∧ around_point 1 e.2 = e.2.
Proof.
  intros He. split.
  - unfold rounded_segments in He.
    apply list_elem_of_fmap in He as (e' & -> & _). apply sorted_pair_idemp.
  - apply elem_of_rounded_segments in He as (a & b & _ & _ & [->| ->]);
      simpl; by rewrite !around_point_idemp.
Qed.

Lemma unordered_segments_pair_lines (E : list (Point * Point)) :
  (∀ e, e ∈ E → sorted_pair e = e) →
  unordered_segments ((λ e : Point * Point, [e.1; e.2]) <$> E) = E.
Proof.
  intros HE. unfold unordered_segments. induction E as [|[a b] E IH]; [done|].
  cbn. rewrite (HE (a, b)) by left. f_equal. apply IH.
  intros e He. apply HE. by right.
Qed.

Section Dedup.
Context `{GeometryLaws}.

Lemma ensure_no_duplicates_unfold shape :
  let R := rounded_segments (geoms_of shape) in
  ensure_no_duplicates shape
  = if bool_decide (length (remove_dups R) < length R)%nat
    then linemerge ((λ e : Point * Point, [e.1; e.2]) <$> remove_dups R)
    else shape.
Proof.
  unfold ensure_no_duplicates, rounded_segments.
  by rewrite geoms_of_as_Multi, !length_fmap.
Qed.

Lemma ensure_no_duplicates_NoDup shape :
  NoDup (rounded_segments (geoms_of (ensure_no_duplicates shape))).
Proof.
  rewrite ensure_no_duplicates_unfold. cbv zeta.
  set (R := rounded_segments (geoms_of shape)).
  case_bool_decide as Hlen; [|by apply remove_dups_same_length].
  set (out := linemerge _).
  assert (unordered_segments (geoms_of out) ⊆+ remove_dups R) as Hsub.
  { unfold out. etrans; [apply linemerge_segments|].
    rewrite unordered_segments_pair_lines; [done|].
    intros e He. apply (proj1 (elem_of_remove_dups _ _)) in He.
    by apply rounded_segments_fixed in He as [? _]. }
  assert (rounded_segments (geoms_of out) = unordered_segments (geoms_of out))
    as ->.
  { unfold rounded_segments, unordered_segments. f_equal.
    rewrite <- (list_fmap_id (geoms_of out ≫= segments)) at 2.
    apply list_fmap_ext. intros i e Hi%list_elem_of_lookup_2. simpl.
    assert (sorted_pair e ∈ R) as HR.
    { apply elem_of_remove_dups. eapply elem_of_submseteq; [|exact Hsub].
      unfold unordered_segments. apply list_elem_of_fmap. eauto. }
    apply rounded_segments_fixed in HR as (_ & H1 & H2).
    unfold sorted_pair in H1, H2. destruct e as [a b].
    destruct (point_leb _ _); simpl in *; congruence. }
  eapply submseteq_NoDup'; [exact Hsub|apply NoDup_remove_dups].
Qed.
End Dedup.
(** *** binary64 rounding *)

Lemma rint_near (q : Q) : (Qabs (inject_Z (rint q) - q) <= 1 # 2)%Q.
Proof.
  pose proof (rint_bound q) as Hb. set (k := rint q) in *.
  destruct q as [n d]. simpl in Hb.
  apply Qabs_Qle_condition. unfold Qle, Qminus, Qplus, Qopp, inject_Z. simpl.
  split; nia.
Qed.

Lemma ilog2_lower (q : Q) : (0 < q)%Q → (2 ^ ilog2 q <= q)%Q.
Proof.
  intros Hq. unfold ilog2.
  set (la := Z.log2 (Qnum q)). set (lb := Z.log2 (Z.pos (Qden q))).
  destruct (Qle_bool (2 ^ (la - lb)) q) eqn:E; [by apply Qle_bool_iff|].
  assert (0 < Qnum q) as Ha.
  { destruct q as [a b]. unfold Qlt in Hq. simpl in *. lia. }
  pose proof (Z.log2_spec _ Ha) as [Ha1 _]. fold la in Ha1.
  pose proof (Z.log2_spec (Z.pos (Qden q)) ltac:(lia)) as [_ Hb2]. fold lb in Hb2.
  assert (0 ≤ la) as Hla by apply Z.log2_nonneg.
  assert (0 ≤ lb) as Hlb by apply Z.log2_nonneg.
  replace (la - lb - 1) with (la - (lb + 1)) by lia.
  rewrite Qpower_minus by done.
  change 2%Q with (inject_Z 2).
  rewrite <- !Zpower_Qpower by lia.
  replace (Z.succ lb) with (lb + 1) in Hb2 by lia.
  set (A := 2 ^ la) in *. set (B := 2 ^ (lb + 1)) in *.
  destruct B as [|B|B]; [lia| |lia].
  destruct q as [a b]. simpl in *.
  unfold Qle, Qdiv, Qmult, Qinv, inject_Z. simpl. nia.
Qed.

Lemma Qabs_bounds (a b : Q) : (Qabs a <= b)%Q ↔ (- b <= a ∧ a <= b)%Q.
Proof. apply Qabs_Qle_condition. Qed.

Lemma binary64_error (q : Q) : (Qabs (binary64 q - q) <= Qabs q * u53)%Q.
Proof.
  unfold binary64. destruct (Qeq_bool q 0) eqn:E.
  - apply Qeq_bool_iff in E. rewrite E. vm_compute. discriminate.
  - assert (¬ q == 0)%Q as Hq by (by apply Qeq_bool_neq).
    assert (0 < Qabs q)%Q as Hpos.
    { clear E. destruct q as [n d]. unfold Qeq in Hq. simpl in Hq.
      unfold Qlt, Qabs. simpl. lia. }
    pose proof (ilog2_lower _ Hpos) as Hl.
    set (l := ilog2 (Qabs q)) in *. set (ulp := (2 ^ (l - 52))%Q).
    assert (0 < ulp)%Q as Hulp by (by apply Qpower_0_lt).
    assert (2 ^ l == ulp * inject_Z (2 ^ 52))%Q as Hsplit.
    { unfold ulp. rewrite Zpower_Qpower by lia.
      rewrite <- Qpower_plus by done. by replace (l - 52 + 52) with l by lia. }
    pose proof (rint_near (q / ulp)) as Hr.
    set (r := inject_Z (rint (q / ulp))) in *.
    set (z := (q / ulp)%Q) in *.
    assert (q == z * ulp)%Q as Hz.
    { unfold z. field. intros H0. rewrite H0 in Hulp. by apply Qlt_irrefl in Hulp. }
    rewrite Hsplit in Hl.
    apply Qabs_bounds in Hr as [Hr1 Hr2].
    assert (Qabs (r * ulp - q) <= ulp * (1 # 2))%Q as Hd.
    { apply Qabs_bounds. rewrite Hz. split; nra. }
    eapply Qle_trans; [exact Hd|].
    unfold u53. set (a := Qabs q) in *. change (inject_Z (2 ^ 52)) with (4503599627370496 # 1)%Q in Hl.
    lra.
Qed.

Lemma binary64_rel (q : Q) :
  ∃ δ : Q, (Qabs δ <= u53)%Q ∧ (binary64 q == q * (1 + δ))%Q.
Proof.
  destruct (Qeq_bool q 0) eqn:E.
  - exists 0%Q. split; [vm_compute; discriminate|].
    unfold binary64. rewrite E. apply Qeq_bool_iff in E. rewrite E. reflexivity.
  - assert (¬ q == 0)%Q as Hq by (by apply Qeq_bool_neq).
    pose proof (binary64_error q) as He.
    exists ((binary64 q - q) / q)%Q. split; [|by field].
    set (e := (binary64 q - q)%Q) in *.
    apply Qabs_bounds in He as [He1 He2]. apply Qabs_bounds.
    revert He1 He2. apply (Qabs_case q); intros Hs He1 He2.
    + assert (0 < q)%Q as Hpos.
      { apply Qle_lteq in Hs as [?|Hs]; [done|]. by symmetry in Hs. }
      split.
      * apply Qle_shift_div_l; [done|]. lra.
      * apply Qle_shift_div_r; [done|]. lra.
    + assert (0 < - q)%Q as Hpos.
      { apply Qle_lteq in Hs as [?|Hs]; [lra|]. done. }
      assert (e / q == (- e) / (- q))%Q as -> by (field; done).
      split.
      * apply Qle_shift_div_l; [done|]. lra.
      * apply Qle_shift_div_r; [done|]. lra.
Qed.

Lemma ilog2_upper (q : Q) : (0 < q)%Q → (q < 2 ^ (ilog2 q + 1))%Q.
Proof.
  intros Hq. unfold ilog2.
  set (la := Z.log2 (Qnum q)). set (lb := Z.log2 (Z.pos (Qden q))).
  destruct (Qle_bool (2 ^ (la - lb)) q) eqn:E.
  2: { replace (la - lb - 1 + 1) with (la - lb) by lia.
       apply Qnot_le_lt. intros Hle%Qle_bool_iff. congruence. }
  assert (0 < Qnum q) as Ha.
  { destruct q as [a b]. unfold Qlt in Hq. simpl in *. lia. }
  pose proof (Z.log2_spec _ Ha) as [_ Ha2]. fold la in Ha2.
  pose proof (Z.log2_spec (Z.pos (Qden q)) ltac:(lia)) as [Hb1 _]. fold lb in Hb1.
  assert (0 ≤ la) as Hla by apply Z.log2_nonneg.
  assert (0 ≤ lb) as Hlb by apply Z.log2_nonneg.
  replace (la - lb + 1) with ((la + 1) - lb) by lia.
  rewrite Qpower_minus by done.
  change 2%Q with (inject_Z 2).
  rewrite <- !Zpower_Qpower by lia.
  replace (Z.succ la) with (la + 1) in Ha2 by lia.
  set (A := 2 ^ (la + 1)) in *. set (B := 2 ^ lb) in *.
  destruct B as [|B'|B'] eqn:EB; [lia| |lia].
  destruct q as [a b]. simpl in *.
  unfold Qlt, Qdiv, Qmult, Qinv, inject_Z. simpl. nia.
Qed.

(** [binary64 q] has a significand of at most 53 bits. *)
Lemma binary64_significand (q : Q) :
  ∃ m e : Z, Z.abs m ≤ 2 ^ 53 ∧ binary64 q = (inject_Z m * 2 ^ e)%Q.
Proof.
  unfold binary64. destruct (Qeq_bool q 0) eqn:E.
  - exists 0, 0. split; [lia|reflexivity].
  - assert (¬ q == 0)%Q as Hq by (by apply Qeq_bool_neq).
    assert (0 < Qabs q)%Q as Hpos.
    { clear E. destruct q as [n d]. unfold Qeq in Hq. simpl in Hq.
      unfold Qlt, Qabs. simpl. lia. }
    pose proof (ilog2_upper _ Hpos) as Hl.
    set (l := ilog2 (Qabs q)) in *. set (ulp := (2 ^ (l - 52))%Q).
    exists (rint (q / ulp)), (l - 52). split; [|done].
    assert (0 < ulp)%Q as Hulp by (by apply Qpower_0_lt).
    assert (2 ^ (l + 1) == ulp * inject_Z (2 ^ 53))%Q as Hsplit.
    { unfold ulp. rewrite Zpower_Qpower by lia.
      rewrite <- Qpower_plus by done. by replace (l - 52 + 53) with (l + 1) by lia. }
    rewrite Hsplit in Hl.
    pose proof (rint_near (q / ulp)) as [Hr1 Hr2]%Qabs_bounds.
    set (z := (q / ulp)%Q) in *.
    assert (q == z * ulp)%Q as Hz.
    { unfold z. field. intros H0. rewrite H0 in Hulp. by apply Qlt_irrefl in Hulp. }
    assert (- inject_Z (2 ^ 53) < z ∧ z < inject_Z (2 ^ 53))%Q as [Hz1 Hz2].
    { revert Hl. apply (Qabs_case q); rewrite Hz; intros Hs Hl; split; nra. }
    set (m := rint z) in *. clearbody m.
    assert (- inject_Z (2 ^ 53) - 1 < inject_Z m
            ∧ inject_Z m < inject_Z (2 ^ 53) + 1)%Q as [Hm1 Hm2] by (split; lra).
    change (2 ^ 53) with 9007199254740992 in *.
    unfold Qlt, Qplus, Qminus, Qopp, inject_Z in Hm1, Hm2. simpl in Hm1, Hm2.
    lia.
Qed.

Lemma rel_step (a d A : Q) :
  (Qabs a <= A → A <= 1 # 100 → Qabs d <= u53 →
   Qabs ((1 + a) * (1 + d) - 1) <= A + (101 # 100) * u53)%Q.
Proof.
  intros [Ha1 Ha2]%Qabs_bounds HA [Hd1 Hd2]%Qabs_bounds.
  apply Qabs_bounds. unfold u53 in *. split; nra.
Qed.

Lemma four_roundings (d1 d2 d3 d4 : Q) :
  (Qabs d1 <= u53 → Qabs d2 <= u53 → Qabs d3 <= u53 → Qabs d4 <= u53 →
   Qabs ((1 + d1) * (1 + d2) * (1 + d3) * (1 + d4) - 1) <= 5 * u53)%Q.
Proof.
  intros H1 H2 H3 H4.
  pose proof (rel_step d1 d2 u53 H1 ltac:(vm_compute; discriminate) H2) as H12.
  set (a2 := ((1 + d1) * (1 + d2) - 1)%Q) in *.
  pose proof (rel_step a2 d3 _ H12 ltac:(vm_compute; discriminate) H3) as H123.
  set (a3 := ((1 + a2) * (1 + d3) - 1)%Q) in *.
  pose proof (rel_step a3 d4 _ H123 ltac:(vm_compute; discriminate) H4) as H1234.
  assert ((1 + d1) * (1 + d2) * (1 + d3) * (1 + d4) - 1
          == (1 + a3) * (1 + d4) - 1)%Q as -> by (unfold a3, a2; ring).
  eapply Qle_trans; [exact H1234|]. unfold u53. lra.
Qed.

Lemma rint_product_near (n X : Z) (y : Q) (E : Q) :
  2 ≤ n →
  1000 * Z.abs X * n < 2 ^ 53 →
  (Qabs E <= 5 * u53)%Q →
  (y == inject_Z (100 * X * n) / inject_Z (n - 1) * (1 + E))%Q →
  2 * Z.abs (rint y * (n - 1) - 100 * X * n) ≤ n - 1.
Proof.
  intros Hn Hsize [HE1 HE2]%Qabs_bounds Hy.
  pose proof (rint_near y) as [Hm1 Hm2]%Qabs_bounds.
  set (m := rint y) in *. set (T := 100 * X * n) in *. set (N := n - 1) in *.
  assert (1 <= inject_Z N)%Q as HN
    by (change 1%Q with (inject_Z 1); rewrite <- Zle_Qle; lia).
  assert (- (5 # 10) < inject_Z T * E ∧ inject_Z T * E < 5 # 10)%Q as [HT1 HT2].
  { assert (- (900719925474099 # 1) <= inject_Z T
            ∧ inject_Z T <= 900719925474099 # 1)%Q as [Hb1 Hb2].
    { change (- (900719925474099 # 1))%Q with (inject_Z (- 900719925474099)).
      change (900719925474099 # 1)%Q with (inject_Z 900719925474099).
      rewrite <- !Zle_Qle. change (2 ^ 53) with 9007199254740992 in Hsize.
      unfold T. lia. }
    unfold u53 in *. split; nra. }
  set (t := (inject_Z T / inject_Z N)%Q) in *.
  assert (t * inject_Z N == inject_Z T)%Q as Ht.
  { unfold t. field. intros H0. rewrite H0 in HN. by apply HN. }
  assert (- inject_Z N - 1 < 2 * (inject_Z m * inject_Z N - inject_Z T)
          ∧ 2 * (inject_Z m * inject_Z N - inject_Z T) < inject_Z N + 1)%Q
    as [H1 H2].
  { assert (inject_Z m * inject_Z N - inject_Z T
            == (inject_Z m - y) * inject_Z N + inject_Z T * E)%Q as ->.
    { rewrite Hy, <- Ht. ring. }
    split; nra. }
  unfold Qlt, Qmult, Qminus, Qplus, Qopp, inject_Z in H1, H2.
  simpl in H1, H2.
  lia.
Qed.

Lemma scaled_coordinate_grid (n stride c : Z) :
  ∃ k : Z, scaled_coordinate n stride c = k # 100.
Proof. unfold scaled_coordinate, around_binary64. eauto. Qed.

Lemma scaled_coordinate_near (n stride c : Z) :
  2 ≤ n →
  1000 * Z.abs (c * stride) * n < 2 ^ 53 →
  (Qabs (scaled_coordinate n stride c
         - inject_Z c * (inject_Z stride * (inject_Z n / inject_Z (n - 1))))
   <= 1 # 200)%Q.
Proof.
  intros Hn Hsize. unfold scaled_coordinate, around_binary64.
  set (f := (inject_Z n / inject_Z (n - 1))%Q).
  destruct (binary64_rel (inject_Z (c * stride))) as (d1 & Hd1 & E1).
  destruct (binary64_rel f) as (d2 & Hd2 & E2).
  destruct (binary64_rel (binary64 (inject_Z (c * stride)) * binary64 f))
    as (d3 & Hd3 & E3).
  set (p := binary64 (binary64 (inject_Z (c * stride)) * binary64 f)) in *.
  destruct (binary64_rel (p * (Z.pos (pow10 2) # 1))) as (d4 & Hd4 & E4).
  set (y := binary64 (p * (Z.pos (pow10 2) # 1))) in *.
  pose proof (four_roundings d1 d2 d3 d4 Hd1 Hd2 Hd3 Hd4) as HE.
  set (E := ((1 + d1) * (1 + d2) * (1 + d3) * (1 + d4) - 1)%Q) in *.
  assert (y == inject_Z (100 * (c * stride) * n) / inject_Z (n - 1) * (1 + E))%Q
    as Hy.
  { rewrite E4, E3, E1, E2. unfold E, f.
    rewrite !inject_Z_mult. change (Z.pos (pow10 2) # 1)%Q with (inject_Z 100).
    field. change 0%Q with (inject_Z 0). rewrite inject_Z_injective. lia. }
  pose proof (rint_product_near n (c * stride) y E Hn Hsize HE Hy) as Hm.
  set (m := rint y) in *. clearbody m. clear -Hm Hn.
  destruct (n - 1) as [|N|N] eqn:EN; [lia| |lia].
  apply Qabs_bounds.
  unfold Qle, Qdiv, Qmult, Qinv, Qminus, Qplus, Qopp, inject_Z. simpl.
  split; nia.
Qed.

Lemma around_point_grid decimals (u : Point) :
  ∃ k1 k2 : Z, around_point decimals u = (k1 # pow10 decimals, k2 # pow10 decimals).
Proof. unfold around_point, around. eauto. Qed.

Lemma elem_of_take_indices {A} `{Inhabited A} (a : list A) (idx : list nat) x :
  (∀ k, k ∈ idx → (k < length a)%nat) → x ∈ take_indices a idx → x ∈ a.
Proof.
  intros Hidx (k & -> & Hk)%list_elem_of_fmap.
  destruct (lookup_lt_is_Some_2 a k (Hidx k Hk)) as [y Hy].
  rewrite (list_lookup_total_correct _ _ _ Hy). by eapply list_elem_of_lookup_2.
Qed.

Lemma take_where_subset {A} (l : list A) mask x : x ∈ take_where l mask → x ∈ l.
Proof.
  intros (k & Hk & _)%elem_of_take_where. by eapply list_elem_of_lookup_2.
Qed.

Lemma skeleton_graph_nodes img stride g :
  skeleton_graph img stride = Ok (Some g) →
  length img ≠ 1%nat ∧
  nodes_xy g = (λ p : nat * nat,
     (scaled_coordinate (Z.of_nat (length img)) stride (Z.of_nat p.2),
      scaled_coordinate (Z.of_nat (length img)) stride (Z.of_nat p.1)))
    <$> nonzero img ∧
  (∀ k, k ∈ edges_u g → (k < length (nodes_xy g))%nat) ∧
  (∀ k, k ∈ edges_v g → (k < length (nodes_xy g))%nat).
Proof.
  intros Hg. destruct (scaled_nodes img stride) as [[uxy xy]|] eqn:Hn.
  2: { unfold skeleton_graph in Hg. by rewrite Hn in Hg. }
  pose proof Hn as Hn'. unfold scaled_nodes in Hn'.
  case_bool_decide as Hlen; [done|]. injection Hn' as <- Hxy.
  unfold skeleton_graph in Hg. rewrite Hn in Hg. simpl in Hg.
  case_bool_decide; [done|]. injection Hg as <-. simpl.
  split_and!; [done| | |].
  - rewrite <- Hxy, <- !list_fmap_compose. done.
  - intros k Hk%take_where_subset.
    apply list_elem_of_fmap in Hk as ([i j] & -> & Hij).
    apply elem_of_query_pairs in Hij. simpl. lia.
  - intros k Hk%take_where_subset.
    apply list_elem_of_fmap in Hk as ([i j] & -> & Hij).
    apply elem_of_query_pairs in Hij. simpl. lia.
Qed.

Section Vectorize.
Context `{GeometryLaws}.

Lemma merged_lines_vertices g tolerance preserve_topology v :
  (∀ k, k ∈ edges_u g → (k < length (nodes_xy g))%nat) →
  (∀ k, k ∈ edges_v g → (k < length (nodes_xy g))%nat) →
  v ∈ vertices (merged_lines g tolerance preserve_topology) →
  v ∈ nodes_xy g.
Proof.
  intros Hu Hv Hin. unfold merged_lines in Hin.
  apply simplify_vertices, linemerge_vertices in Hin.
  apply elem_of_concat in Hin as (l & Hl & Hvl).
  apply list_elem_of_lookup in Hl as [k Hk].
  apply lookup_zip_with_Some in Hk as (p & q & -> & Hp & Hq).
  apply list_elem_of_lookup_2 in Hp, Hq.
  apply elem_of_take_indices in Hp; [|done].
  apply elem_of_take_indices in Hq; [|done].
  apply elem_of_cons in Hvl as [->|Hvl]; [done|].
  by apply list_elem_of_singleton in Hvl as ->.
Qed.

Lemma ensure_no_duplicates_vertices shape v :
  let R := rounded_segments (geoms_of shape) in
  (length (remove_dups R) < length R)%nat →
  v ∈ vertices (ensure_no_duplicates shape) →
  ∃ u, u ∈ vertices shape ∧ v = around_point 1 u.
Proof.
  intros R Hlen. rewrite ensure_no_duplicates_unfold. cbv zeta. fold R.
  rewrite bool_decide_eq_true_2 by done.
  intros Hv%linemerge_vertices.
  apply elem_of_concat in Hv as (l & Hl & Hvl).
  apply list_elem_of_fmap in Hl as (e & -> & He).
  apply (proj1 (elem_of_remove_dups _ _)) in He.
  apply elem_of_rounded_segments in He as (a & b & Ha & Hb & He).
  apply elem_of_cons in Hvl as [->|Hvl];
    [|apply list_elem_of_singleton in Hvl as ->];
    destruct He as [-> | ->]; simpl; eauto.
Qed.

Lemma linemerge_nil_segments :
  rounded_segments (geoms_of (linemerge [])) = [].
Proof.
  pose proof (linemerge_segments []) as Hsub.
  unfold unordered_segments in Hsub. simpl in Hsub.
  apply submseteq_length in Hsub. rewrite length_fmap in Hsub.
  apply length_zero_iff_nil. unfold rounded_segments.
  rewrite !length_fmap. simpl in Hsub. lia.
Qed.

Lemma vectorize_skeleton_NoDup img stride tolerance preserve_topology
    remove_hair out :
  vectorize_skeleton img stride tolerance preserve_topology remove_hair
    = Ok out →
  NoDup (rounded_segments (geoms_of out)).
Proof.
  unfold vectorize_skeleton.
  destruct (skeleton_graph img stride) as [[g|]|]; simpl; [| |done].
  - destruct (if Qeq_bool remove_hair 0 then _ else _) as [shape|];
      simpl; [|done].
    intros [= <-]. apply ensure_no_duplicates_NoDup.
  - intros [= <-]. rewrite linemerge_nil_segments. constructor.
Qed.
End Vectorize.
Section Fusion.
Context `{World}.

Lemma upscale_prediction_odd stride iid model_product P_rgb green_weight :
  stride `mod` 2 ≠ 0 →
  upscale_prediction stride 2 iid model_product P_rgb green_weight
  = Raise AssertionError.
Proof. intros Hodd. unfold upscale_prediction. by rewrite bool_decide_eq_true_2. Qed.

Lemma atomic_stride model_root iid green_weight P stride :
  get_raster_probability_atomic model_root iid green_weight = Ok (P, stride) →
  stride = 2.
Proof.
  unfold get_raster_probability_atomic, upscale_prediction.
  destruct (iid_path _ _ _) as [path|]; cbn [mbind result_bind]; [|done].
  destruct (open_image path) as [im|]; cbn [mbind result_bind]; [|done].
  destruct (model_database !! model_root) as [cfg|];
    cbn [mbind result_bind]; [|done].
  rewrite bool_decide_eq_false_2 by (intros Hx; by apply Hx).
  by intros [= _ <-].
Qed.

Lemma atomic_returns model_root iid green_weight path im cfg :
  iid_path iid ("rgb_pred_" +:+ model_root +:+ "_png") None = Ok path →
  Image_open path = Some im →
  model_database !! model_root = Some cfg →
  get_raster_probability_atomic model_root iid green_weight
  = Ok (class_weighting (resize_bilinear im (length im * 2)) green_weight, 2).
Proof.
  intros Hpath Him Hcfg.
  unfold get_raster_probability_atomic, upscale_prediction, open_image.
  rewrite Hpath. cbn [mbind result_bind]. rewrite Him, Hcfg.
  cbn [mbind result_bind].
  by rewrite bool_decide_eq_false_2 by (intros Hx; by apply Hx).
Qed.
End Fusion.

Section Submission.
Context `{World} `{Geometry}.

Local Abbreviation step model_root :=
  (λ (acc : result (list string)) (iid : string),
     rows ← acc; submission_rows model_root rows iid).

Lemma foldl_snoc_fmap {A B} (f : A → B) (l : list A) (acc : list B) :
  foldl (λ acc x, acc ++ [f x]) acc l = acc ++ (f <$> l).
Proof.
  revert acc. induction l as [|x l IH]; intros acc; simpl.
  - by rewrite app_nil_r.
  - by rewrite IH, <- app_assoc.
Qed.

Lemma step_Ok model_root rows iid shape :
  postprocess model_root (splitext_root iid) = Ok shape →
  submission_rows model_root rows iid
  = Ok (rows ++ tile_rows (splitext_root iid) shape).
Proof.
  intros Hp. unfold submission_rows. rewrite Hp. cbn [mbind result_bind].
  unfold tile_rows. rewrite geoms_of_as_Multi.
  destruct (geoms_of shape) as [|l ls] eqn:Hg.
  - by rewrite bool_decide_eq_true_2.
  - rewrite bool_decide_eq_false_2 by done. by rewrite foldl_snoc_fmap.
Qed.

Lemma step_Raise model_root rows iid e :
  postprocess model_root (splitext_root iid) = Raise e →
  submission_rows model_root rows iid = Raise e.
Proof. intros Hp. unfold submission_rows. by rewrite Hp. Qed.

Lemma loop_Raise model_root e iids :
  foldl (step model_root) (Raise e) iids = Raise e.
Proof. induction iids as [|iid iids IH]; [done|]. simpl. apply IH. Qed.

Lemma loop_Ok model_root iids shapes rows :
  Forall2 (λ iid shape, postprocess model_root (splitext_root iid) = Ok shape)
    iids shapes →
  foldl (step model_root) (Ok rows) iids
  = Ok (rows ++ concat (zip_with (λ iid shape, tile_rows (splitext_root iid) shape)
                          iids shapes)).
Proof.
  intros Hall. revert rows.
  induction Hall as [|iid shape iids shapes Hp _ IH]; intros rows.
  - simpl. by rewrite app_nil_r.
  - cbn [foldl mbind result_bind]. rewrite (step_Ok _ _ _ _ Hp), IH. simpl.
    by rewrite <- app_assoc.
Qed.

Lemma loop_fails model_root pre iid post e :
  Forall (λ t, ∃ shape, postprocess model_root (splitext_root t) = Ok shape) pre →
  postprocess model_root (splitext_root iid) = Raise e →
  foldl (step model_root) (Ok []) (pre ++ iid :: post) = Raise e.
Proof.
  intros Hpre Hfail. generalize (@nil string) as rows.
  induction Hpre as [|t pre [shape Hp] _ IH]; intros rows.
  - cbn [app foldl mbind result_bind]. rewrite (step_Raise _ _ _ _ Hfail).
    apply loop_Raise.
  - cbn [app foldl mbind result_bind]. rewrite (step_Ok _ _ _ _ Hp). apply IH.
Qed.
End Submission.

(** ** Reference instances meet the contracts *)

#[global] Instance plain_geometry_laws : @GeometryLaws plain_geometry.
Proof.
  assert (∀ lines : list Coords,
            geoms_of (@linemerge plain_geometry lines) ≫= segments
            = filter (λ e : Point * Point, point_eqb e.1 e.2 = false)
                     (lines ≫= segments)) as Hsegs.
  { intros lines. cbn [linemerge plain_geometry]. unfold split_lines. simpl.
    induction (filter _ _) as [|[a b] l IH]; [done|]. cbn. by rewrite IH. }
  split.
  - intros lines. unfold unordered_segments. rewrite Hsegs.
    apply sublist_submseteq, fmap_sublist, sublist_filter.
  - intros lines p. unfold vertices. simpl.
    intros (l & (e & -> & He)%list_elem_of_fmap & Hp)%elem_of_concat.
    apply list_elem_of_filter in He as [_ He].
    apply list_elem_of_bind in He as (strn & He & Hstrn).
    destruct e as [a b]. apply segments_endpoints in He as [Ha Hb].
    apply elem_of_concat. exists strn. split; [done|].
    apply elem_of_cons in Hp as [->|Hp]; [done|].
    by apply list_elem_of_singleton in Hp as ->.
  - done.
Qed.

(** * Part IV: the claims *)

(** ** T-junction disambiguation *)

(** C1.  In the graph built by [vectorize_skeleton], a candidate edge between
    two pixels [a] and [b] whose unscaled offset has squared length 2 is
    kept if and only if neither corner pixel [(a.x, b.y)], [(b.x, a.y)] is an
    on-pixel of the skeleton.  In particular no edge joins two diagonal
    pixels when one of their corner pixels is on: an L of three pixels
    gives no triangle. *)
Theorem diagonal_edge_kept_iff img stride uxy xy g :
  scaled_nodes img stride = Ok (uxy, xy) →
  skeleton_graph img stride = Ok (Some g) →
  (∀ i j a b,
     (i, j) ∈ query_pairs xy ((15 # 10) * inject_Z stride)%Q →
     uxy !! i = Some a → uxy !! j = Some b →
     is_diagonal_pair a b = true →
     (i, j) ∈ zip (edges_u g) (edges_v g) ↔
     ¬ on_xy img (a.1, b.2) ∧ ¬ on_xy img (b.1, a.2)) ∧
  (∀ i j a b,
     uxy !! i = Some a → uxy !! j = Some b →
     is_diagonal_pair a b = true →
     on_xy img (a.1, b.2) ∨ on_xy img (b.1, a.2) →
     (i, j) ∉ zip (edges_u g) (edges_v g)).
Proof.
  intros Hn Hg.
  destruct (skeleton_graph_edges _ _ _ _ _ Hn Hg) as (_ & _ & Hedges).
  destruct (scaled_nodes_Ok _ _ _ _ Hn) as [Huxy Hlen].
  set (pairs := query_pairs xy _) in *.
  assert (∀ i j a b, (i, j) ∈ pairs →
            uxy !! i = Some a → uxy !! j = Some b →
            is_diagonal_pair a b = true →
            (i, j) ∈ zip (edges_u g) (edges_v g) ↔
            ¬ on_xy img (a.1, b.2) ∧ ¬ on_xy img (b.1, a.2)) as Hiff.
  { intros i j a b Hij Ha Hb Hd. rewrite Hedges.
    assert (∀ k, pairs !! k = Some (i, j) →
              diagonal_keep_mask uxy (pairs.*1) (pairs.*2) !! k
              = Some (keep_edge (list_to_set uxy) a b)) as Hmask.
    { intros k Hk.
      apply (diagonal_keep_mask_lookup _ _ _ _ i j); [..|done|done];
        by rewrite list_lookup_fmap, Hk. }
    assert (keep_edge (list_to_set uxy) a b = true ↔
            ¬ on_xy img (a.1, b.2) ∧ ¬ on_xy img (b.1, a.2)) as <-.
    { unfold keep_edge. rewrite Hd, negb_true_iff, orb_false_iff.
      rewrite !bool_decide_eq_false, !elem_of_list_to_set, Huxy.
      by rewrite !elem_of_unscaled. }
    rewrite elem_of_take_where. split.
    - intros (k & Hk & Hm). rewrite (Hmask k Hk) in Hm. congruence.
    - intros Hkeep. apply list_elem_of_lookup in Hij as [k Hk].
      exists k. split; [done|]. by rewrite (Hmask k Hk), Hkeep. }
  split; [exact Hiff|].
  intros i j a b Ha Hb Hd Hcorner Hin.
  assert ((i, j) ∈ pairs) as Hij.
  { rewrite Hedges in Hin. by eapply take_where_subset. }
  apply (Hiff i j a b Hij Ha Hb Hd) in Hin. tauto.
Qed.

(** The L of three pixels: its diagonal is a candidate and is not kept. *)
Lemma diagonal_edge_kept_iff_witness :
  scaled_nodes L_skeleton 2 = Ok (nodes_unscaled L_graph, nodes_xy L_graph) ∧
  skeleton_graph L_skeleton 2 = Ok (Some L_graph) ∧
  (0, 2)%nat ∈ query_pairs (nodes_xy L_graph) ((15 # 10) * inject_Z 2)%Q ∧
  (0, 2)%nat ∉ zip (edges_u L_graph) (edges_v L_graph).
Proof.
  assert (scaled_nodes L_skeleton 2
          = Ok (nodes_unscaled L_graph, nodes_xy L_graph)) as Hn
    by (vm_compute; reflexivity).
  assert (skeleton_graph L_skeleton 2 = Ok (Some L_graph)) as Hg
    by (vm_compute; reflexivity).
  split_and!; [exact Hn|exact Hg|vm_compute; apply list_elem_of_further, list_elem_of_here|].
  apply (proj2 (diagonal_edge_kept_iff L_skeleton 2 _ _ _ Hn Hg)
           0%nat 2%nat (0, 0) (1, 1)); [reflexivity..|].
  right. unfold on_xy, on. simpl. split_and!; [lia..|vm_compute; reflexivity].
Defined.

(** A pure diagonal of three pixels keeps both its diagonal edges. *)
Example diagonal_skeleton_edges :
  skeleton_graph diagonal_skeleton 2
  = Ok (Some {| nodes_unscaled := [(0, 0); (1, 1); (2, 2)];
                nodes_xy := [(0 # 100, 0 # 100); (212 # 100, 212 # 100);
                             (424 # 100, 424 # 100)];
                edges_u := [0; 1]%nat;
                edges_v := [1; 2]%nat |}).
Proof. vm_compute. reflexivity. Qed.

(** ** Component filter *)

(** C2, as the code has it.  Without [largest_only] the on-pixels of the
    result are exactly those of the 8-connected components whose pixel count
    times [stride] is at least [min_length].  With [largest_only] the same
    threshold is applied first: either no component reaches it and nothing
    survives, or exactly one component survives, one of greatest pixel count
    among those that reach it. *)
Theorem remove_small_components_survivors img stride min_length :
  (∀ lo, length <$> remove_small_components img stride lo min_length false
         = length <$> img) ∧
  (∀ p, on (remove_small_components img stride false min_length false) p ↔
        ∃ n, qualifies img stride min_length p n) ∧
  (((∀ p n, ¬ qualifies img stride min_length p n) ∧
    (∀ p, ¬ on (remove_small_components img stride true min_length false) p))
   ∨
   (∃ p n, qualifies img stride min_length p n ∧
      (∀ q k, qualifies img stride min_length q k → (k ≤ n)%nat) ∧
      ∀ q, on (remove_small_components img stride true min_length false) q
           ↔ connected img p q)).
Proof.
  split_and!.
  - intros lo. apply row_lengths_unpadded.
  - apply survives_all.
  - apply survives_largest.
Qed.

(** A raster of one on-pixel, at the stride and minimum length of
    [postprocess]: with [largest_only] nothing survives although the raster
    is not empty. *)
Lemma largest_only_drops_short_component :
  nonzero [[true]] = [(0, 0)%nat] ∧
  nonzero (remove_small_components [[true]] 2 true 21 false) = [].
Proof. split; vm_compute; reflexivity. Qed.

(** With a minimum length that the component reaches, it survives. *)
Example largest_only_keeps_long_component :
  remove_small_components [[true; true; false; true]] 2 true 4 false
  = [[true; true; false; false]].
Proof. vm_compute. reflexivity. Qed.

(** C10.  With [padded_boundary] the raster is labelled inside a frame of
    on-pixels and cropped back afterwards.  The frame and every component
    that touches the raster border carry one label; the filter therefore
    treats all pixels of border-touching components alike, and the pixel
    count it measures for them includes the frame pixels, so that the
    measured length exceeds the length of the border-touching components
    themselves. *)
Theorem padded_boundary_merges_border img stride min_length :
  rectangular img → 0 < stride →
  let lab := label (pad_ones img) in
  let L := label_at lab (0%nat, 0%nat) in
  let measured := count_label lab L in
  (∀ lo (p : pixel), p ∈ indices img →
     pixel_on (remove_small_components img stride lo min_length true) p
     = pixel_on (remove_small_components (pad_ones img) stride lo min_length
                   false) (shift p)) ∧
  (∀ f, is_frame img f → label_at lab f = L) ∧
  (∀ p, on img p → touches_border img p → label_at lab (shift p) = L) ∧
  (∀ lo p q,
     on img p → touches_border img p → on img q → touches_border img q →
     pixel_on (remove_small_components img stride lo min_length true) p
     = pixel_on (remove_small_components img stride lo min_length true) q) ∧
  (∀ p, on img p → touches_border img p →
     pixel_on (remove_small_components img stride false min_length true) p
     = bool_decide (min_length ≤ Z.of_nat measured * stride)) ∧
  (∀ B F : list pixel,
     NoDup B → (∀ p, p ∈ B → on img p ∧ touches_border img p) →
     NoDup F → (∀ f, f ∈ F → is_frame img f) →
     (length B + length F ≤ measured)%nat) ∧
  (∀ B : list pixel,
     NoDup B → (∀ p, p ∈ B → on img p ∧ touches_border img p) →
     Z.of_nat (length B) * stride < Z.of_nat measured * stride).
Proof.
  intros Hrect Hstride lab L measured.
  assert (∀ p : pixel, on img p → p ∈ indices img) as Hind.
  { intros p Hp%elem_of_nonzero. by apply list_elem_of_filter in Hp as [_ ?]. }
  assert (∀ lo (p : pixel), p ∈ indices img →
     pixel_on (remove_small_components img stride lo min_length true) p
     = pixel_on (remove_small_components (pad_ones img) stride lo min_length
                   false) (shift p)) as Hcrop.
  { intros lo p Hp. rewrite remove_small_components_padded.
    apply (pixel_on_crop_pad img); [apply row_lengths_unpadded|done]. }
  assert (∀ lo p, on img p → touches_border img p →
     pixel_on (remove_small_components img stride lo min_length true) p
     = bool_decide (L ∈ kept_labels lab stride lo min_length)) as Hborder.
  { intros lo p Hp Hb. rewrite Hcrop by auto. rewrite pixel_on_unpadded.
    by rewrite (border_label img Hrect p Hp Hb). }
  split_and!.
  - exact Hcrop.
  - apply frame_label, Hrect.
  - apply border_label, Hrect.
  - intros lo p q Hp Hpb Hq Hqb. by rewrite !Hborder.
  - intros p Hp Hpb. rewrite Hborder by done.
    apply bool_decide_ext, frame_label_kept, Hrect.
  - apply merged_count, Hrect.
  - intros B HB HBin.
    pose proof (merged_count img Hrect B [(0%nat, 0%nat)] HB HBin) as Hle.
    fold lab L measured in Hle. simpl in Hle.
    apply Z.mul_lt_mono_pos_r; [done|].
    apply inj_lt. apply Nat.lt_le_trans with (length B + 1)%nat; [lia|].
    apply Hle; [apply NoDup_singleton|].
    intros f ->%list_elem_of_singleton. apply frame_origin.
Qed.

(** Two opposite corner pixels: padded, both are measured with the frame
    (18 pixels) and survive a minimum length that neither reaches alone. *)
Lemma padded_boundary_merges_border_witness :
  rectangular corners ∧ 0 < 2 ∧
  pixel_on (remove_small_components corners 2 false 21 true) (0, 0)%nat
  = pixel_on (remove_small_components corners 2 false 21 true) (2, 2)%nat.
Proof.
  assert (rectangular corners) as Hrect by (repeat constructor).
  assert (∀ p, p ∈ [(0, 0); (2, 2)]%nat →
            on corners p ∧ touches_border corners p) as Hb.
  { intros p Hp. assert (on_border corners p) as Hon.
    { apply elem_of_cons in Hp as [->|Hp];
        [|apply list_elem_of_singleton in Hp as ->]; split;
        try reflexivity; unfold height, width; simpl; auto. }
    split; [apply Hon|]. exists p. split; [done|constructor]. }
  split_and!; [exact Hrect|lia|].
  destruct (Hb (0, 0)%nat (list_elem_of_here _ _)) as [Hp Hpb].
  destruct (Hb (2, 2)%nat (list_elem_of_further _ _ _ (list_elem_of_here _ _)))
    as [Hq Hqb].
  by apply (padded_boundary_merges_border corners 2 21 Hrect ltac:(lia)).
Defined.

Example padded_boundary_corners :
  remove_small_components corners 2 false 21 true = corners ∧
  remove_small_components corners 2 false 21 false = blank 3 3 ∧
  count_label (label (pad_ones corners)) 1 = 18%nat.
Proof. split_and!; vm_compute; reflexivity. Qed.

(** ** Hair removal *)

(** C3, as the code has it.  The hair-removal pass of [vectorize_skeleton]
    returns the line strings in their order, without those that have an end
    point of arity 1 (first or last) and a length below [remove_hair]: a
    line string is kept exactly when both its end points have an arity
    other than 1 or its length is at least [remove_hair].  A line string
    with one end point of arity 1 and the other shared with other line
    strings is dropped when it is shorter than [remove_hair]. *)
Theorem hair_removal_drops_dead_ends `{Geometry} (shape : Shape)
    (remove_hair : Q) :
  let strings := geoms_of (as_MultiLineString shape) in
  let arity := occurrences (concat strings) in
  Forall (λ strn, strn ≠ []) strings →
  (∀ img stride tolerance preserve_topology g,
     skeleton_graph img stride = Ok (Some g) →
     Qeq_bool remove_hair 0 = false →
     vectorize_skeleton img stride tolerance preserve_topology remove_hair
     = shape' ← hair_removal (merged_lines g tolerance preserve_topology)
                  remove_hair;
       Ok (ensure_no_duplicates shape')) ∧
  ∃ good_strings,
    hair_removal shape remove_hair = Ok (MultiLineString good_strings) ∧
    good_strings
    = filter (λ strn, is_good strings remove_hair strn = true) strings ∧
    (∀ strn p0 pn,
       strn ∈ strings → head strn = Some p0 → last strn = Some pn →
       strn ∈ good_strings ↔
       (arity p0 ≠ 1%nat ∧ arity pn ≠ 1%nat)
       ∨ (remove_hair <= length_of strn)%Q) ∧
    (∀ strn p0 pn,
       strn ∈ strings → head strn = Some p0 → last strn = Some pn →
       arity p0 = 1%nat → (1 < arity pn)%nat →
       ¬ (remove_hair <= length_of strn)%Q →
       strn ∉ good_strings).
Proof.
  intros strings arity Hne. split.
  { intros img stride tolerance preserve_topology g Hg Hrh.
    unfold vectorize_skeleton. rewrite Hg. cbn [mbind result_bind].
    by rewrite Hrh. }
  assert (∀ strn p0 pn,
       strn ∈ strings → head strn = Some p0 → last strn = Some pn →
       is_good strings remove_hair strn = true ↔
       (arity p0 ≠ 1%nat ∧ arity pn ≠ 1%nat)
       ∨ (remove_hair <= length_of strn)%Q) as Hgood.
  { intros strn p0 pn Hs H0 Hn. unfold is_good. rewrite H0, Hn.
    rewrite orb_true_iff, andb_true_iff, !bool_decide_eq_true.
    by rewrite Qle_bool_iff. }
  eexists. split_and!.
  - by apply hair_removal_filter.
  - done.
  - intros strn p0 pn Hs H0 Hn. rewrite list_elem_of_filter. fold strings.
    rewrite (Hgood strn p0 pn Hs H0 Hn). tauto.
  - intros strn p0 pn Hs H0 Hn Ha0 Han Hlen [Hg _]%list_elem_of_filter.
    fold strings in Hg. apply (Hgood strn p0 pn Hs H0 Hn) in Hg.
    destruct Hg as [[? _]|?]; done.
Qed.

(** The spur of the junction: one free end, the other end shared by three
    line strings, length 10 below the threshold 14.  It is dropped. *)
Lemma dead_end_with_shared_end_is_dropped :
  occurrences (concat (geoms_of junction)) (0, 0)%Q = 1%nat ∧
  occurrences (concat (geoms_of junction)) (10, 0)%Q = 3%nat ∧
  Qle_bool 14 (@length_of plain_geometry spur) = false ∧
  @hair_removal plain_geometry junction 14
  = Ok (MultiLineString [branch_up; branch_right]).
Proof. split_and!; vm_compute; reflexivity. Qed.

Lemma hair_removal_drops_dead_ends_witness :
  Forall (λ strn : Coords, strn ≠ []) (geoms_of (as_MultiLineString junction)) ∧
  spur ∉ filter (λ strn, @is_good plain_geometry (geoms_of junction) 14 strn = true)
           (geoms_of junction).
Proof.
  assert (Forall (λ strn : Coords, strn ≠ [])
            (geoms_of (as_MultiLineString junction))) as Hne
    by (repeat (constructor; [done|]); constructor).
  split; [exact Hne|].
  destruct (@hair_removal_drops_dead_ends plain_geometry junction 14 Hne)
    as (_ & good & _ & -> & _ & Hdrop).
  apply (Hdrop spur (0, 0)%Q (10, 0)%Q);
    [apply list_elem_of_here|reflexivity|reflexivity|reflexivity
    |vm_compute; lia|intros Hle; vm_compute in Hle; by apply Hle].
Defined.

(** ** Deduplication *)

Lemma rounded_segments_grid lines e :
  e ∈ rounded_segments lines →
  ∃ k1 k2 k3 k4 : Z, e = ((k1 # 10, k2 # 10), (k3 # 10, k4 # 10)).
Proof.
  intros (a & b & _ & _ & [-> | ->])%elem_of_rounded_segments;
    destruct (around_point_grid 1 a) as (a1 & a2 & ->);
    destruct (around_point_grid 1 b) as (b1 & b2 & ->); eauto 6.
Qed.

Lemma Qeq_bool_grid (k k' : Z) (s : positive) :
  Qeq_bool (k # s) (k' # s) = true → k = k'.
Proof.
  intros Heq%Qeq_bool_iff. unfold Qeq in Heq. simpl in Heq.
  by apply Z.mul_cancel_r in Heq.
Qed.

(** C4.  No two segments of a shape returned by [vectorize_skeleton] (or by
    [ensure_no_duplicates]) have the same unordered pair of end points once
    these are rounded to one decimal; and when the rounded unordered pairs
    of the input are already distinct, [ensure_no_duplicates] returns its
    input.  Rounded coordinates are tenths, so that equal numbers are equal
    terms and [NoDup] speaks of numerical equality. *)
Theorem no_duplicate_segments `{GeometryLaws} :
  (∀ img stride tolerance preserve_topology remove_hair out,
     vectorize_skeleton img stride tolerance preserve_topology remove_hair
       = Ok out →
     NoDup (rounded_segments (geoms_of out))) ∧
  (∀ shape, NoDup (rounded_segments (geoms_of (ensure_no_duplicates shape)))) ∧
  (∀ shape,
     length (remove_dups (rounded_segments (geoms_of shape)))
       = length (rounded_segments (geoms_of shape)) →
     ensure_no_duplicates shape = shape) ∧
  (∀ lines e e',
     e ∈ rounded_segments lines → e' ∈ rounded_segments lines →
     point_eqb e.1 e'.1 = true → point_eqb e.2 e'.2 = true → e = e').
Proof.
  split_and!.
  - intros. by eapply vectorize_skeleton_NoDup.
  - intros. apply ensure_no_duplicates_NoDup.
  - intros shape Hlen. rewrite ensure_no_duplicates_unfold. cbv zeta.
    rewrite bool_decide_eq_false_2; [done|lia].
  - intros lines e e' (a1 & a2 & a3 & a4 & ->)%rounded_segments_grid
      (b1 & b2 & b3 & b4 & ->)%rounded_segments_grid.
    unfold point_eqb. simpl. rewrite !andb_true_iff.
    intros [->%Qeq_bool_grid ->%Qeq_bool_grid]
      [->%Qeq_bool_grid ->%Qeq_bool_grid]. done.
Qed.

(** A shape with two segments that coincide after rounding is repaired to
    one segment. *)
Lemma no_duplicate_segments_witness :
  NoDup (rounded_segments
           (geoms_of (@ensure_no_duplicates plain_geometry doubled))).
Proof. apply (proj1 (proj2 (@no_duplicate_segments plain_geometry _))). Defined.

Example doubled_repaired :
  rounded_segments (geoms_of doubled)
  = [((0 # 10, 0 # 10), (10 # 10, 0 # 10)); ((0 # 10, 0 # 10), (10 # 10, 0 # 10))] ∧
  @ensure_no_duplicates plain_geometry doubled
  = MultiLineString [[(0 # 10, 0 # 10); (10 # 10, 0 # 10)]].
Proof. split; vm_compute; reflexivity. Qed.

(** C9.  When [ensure_no_duplicates] finds a duplicate, every vertex of the
    shape it returns is the rounding to one decimal of a vertex of the
    input: a pair of tenths, at most 0.05 away from that vertex on each
    axis.  Without a duplicate the input itself is returned. *)
Theorem deduplicated_vertices_rounded `{GeometryLaws} (shape : Shape) :
  let R := rounded_segments (geoms_of shape) in
  ((length (remove_dups R) < length R)%nat →
   ∀ v, v ∈ vertices (ensure_no_duplicates shape) →
     ∃ u, u ∈ vertices shape ∧ v = around_point 1 u ∧
       (∃ k1 k2 : Z, v = (k1 # 10, k2 # 10)) ∧
       (Qabs (v.1 - u.1) <= 1 # 20)%Q ∧ (Qabs (v.2 - u.2) <= 1 # 20)%Q) ∧
  (¬ (length (remove_dups R) < length R)%nat →
   ensure_no_duplicates shape = shape).
Proof.
  intros R. split.
  - intros Hlen v Hv.
    destruct (ensure_no_duplicates_vertices shape v Hlen Hv) as (u & Hu & ->).
    exists u. split_and!; [done|done| | |].
    + apply (around_point_grid 1).
    + apply (around_error 1).
    + apply (around_error 1).
  - intros Hlen. rewrite ensure_no_duplicates_unfold. cbv zeta. fold R.
    by rewrite bool_decide_eq_false_2.
Qed.

Lemma deduplicated_vertices_rounded_witness :
  (length (remove_dups (rounded_segments (geoms_of doubled)))
   < length (rounded_segments (geoms_of doubled)))%nat ∧
  ∃ u, u ∈ vertices doubled ∧ (0 # 10, 0 # 10) = around_point 1 u.
Proof.
  assert (length (remove_dups (rounded_segments (geoms_of doubled)))
          < length (rounded_segments (geoms_of doubled)))%nat as Hlen
    by (vm_compute; lia).
  split; [exact Hlen|].
  destruct (proj1 (@deduplicated_vertices_rounded plain_geometry _ doubled)
              Hlen (0 # 10, 0 # 10)%Q) as (u & Hu & Hv & _).
  { vm_compute. apply list_elem_of_here. }
  by exists u.
Defined.

(** The bound 0.05 is reached: [0.05] is rounded to [0.0]. *)
Example dedup_moves_by_half_a_tenth :
  around 1 (5 # 100) = 0 # 10 ∧ (Qabs (around 1 (5 # 100) - (5 # 100)) == 1 # 20)%Q.
Proof. split; [vm_compute; reflexivity|reflexivity]. Qed.

(** ** Node coordinates *)

Lemma on_row_bound img p : on img p → (p.1 < length img)%nat.
Proof.
  intros Hp%elem_of_nonzero. apply list_elem_of_filter in Hp as [_ Hp].
  apply elem_of_indices in Hp as (row & Hrow & _). by eapply lookup_lt_Some.
Qed.

(** C8.  Every vertex of the merged and simplified polylines (before hair
    removal and duplicate repair) is the scaled and rounded coordinate of
    an on-pixel: a pair of hundredths, each within 0.005 of the exact
    product [pixel * stride * n / (n - 1)] as long as the integers involved
    stay far enough below [2^53] for the binary64 roundings not to matter;
    and it is in general different from that product. *)
Theorem merged_vertices_rounded `{GeometryLaws} :
  (∀ img stride tolerance preserve_topology g v,
     skeleton_graph img stride = Ok (Some g) →
     v ∈ vertices (merged_lines g tolerance preserve_topology) →
     ∃ p, on img p ∧
       let n := Z.of_nat (length img) in
       let factor := (inject_Z stride * (inject_Z n / inject_Z (n - 1)))%Q in
       let exact := (inject_Z (Z.of_nat p.2) * factor,
                     inject_Z (Z.of_nat p.1) * factor)%Q in
       v = (scaled_coordinate n stride (Z.of_nat p.2),
            scaled_coordinate n stride (Z.of_nat p.1)) ∧
       (∃ k1 k2 : Z, v = (k1 # 100, k2 # 100)) ∧
       (1000 * Z.abs (Z.of_nat p.2 * stride) * n < 2 ^ 53 →
        (Qabs (v.1 - exact.1) <= 1 # 200)%Q) ∧
       (1000 * Z.abs (Z.of_nat p.1 * stride) * n < 2 ^ 53 →
        (Qabs (v.2 - exact.2) <= 1 # 200)%Q)) ∧
  (∃ img stride p,
     on img p ∧
     let n := Z.of_nat (length img) in
     let factor := (inject_Z stride * (inject_Z n / inject_Z (n - 1)))%Q in
     let exact := (inject_Z (Z.of_nat p.2) * factor)%Q in
     scaled_coordinate n stride (Z.of_nat p.2) = 212 # 100 ∧
     ¬ (scaled_coordinate n stride (Z.of_nat p.2) == exact)%Q).
Proof.
  split.
  - intros img stride tolerance preserve_topology g v Hg Hv.
    destruct (skeleton_graph_nodes _ _ _ Hg) as (Hlen & Hxy & Hu & Hvv).
    apply merged_lines_vertices in Hv; [|done..].
    rewrite Hxy in Hv. apply list_elem_of_fmap in Hv as (p & -> & Hp).
    apply elem_of_nonzero in Hp. pose proof (on_row_bound _ _ Hp) as Hrow.
    assert (2 ≤ Z.of_nat (length img)) as Hn by lia.
    exists p. split; [done|]. cbv zeta. split_and!; [done| | |].
    + destruct (scaled_coordinate_grid (Z.of_nat (length img)) stride
                  (Z.of_nat p.2)) as [k1 ->].
      destruct (scaled_coordinate_grid (Z.of_nat (length img)) stride
                  (Z.of_nat p.1)) as [k2 ->].
      by exists k1, k2.
    + intros Hsize. by apply scaled_coordinate_near.
    + intros Hsize. by apply scaled_coordinate_near.
  - exists L_skeleton, 2, (0, 1)%nat. split; [reflexivity|]. cbv zeta.
    split; [vm_compute; reflexivity|]. vm_compute. discriminate.
Qed.

Lemma merged_vertices_rounded_witness :
  skeleton_graph L_skeleton 2 = Ok (Some L_graph) ∧
  ∃ p, on L_skeleton p ∧
    (212 # 100, 0 # 100)
    = (scaled_coordinate (Z.of_nat (length L_skeleton)) 2 (Z.of_nat p.2),
       scaled_coordinate (Z.of_nat (length L_skeleton)) 2 (Z.of_nat p.1)) ∧
    (Qabs ((212 # 100, 0 # 100).1
           - (inject_Z (Z.of_nat p.2)
              * (inject_Z 2
                 * (inject_Z (Z.of_nat (length L_skeleton))
                    / inject_Z (Z.of_nat (length L_skeleton) - 1))),
              inject_Z (Z.of_nat p.1)
              * (inject_Z 2
                 * (inject_Z (Z.of_nat (length L_skeleton))
                    / inject_Z (Z.of_nat (length L_skeleton) - 1)))).1)
     <= 1 # 200)%Q.
Proof.
  assert (∀ q, q ∈ nonzero L_skeleton →
            1000 * Z.abs (Z.of_nat q.2 * 2) * Z.of_nat (length L_skeleton)
            < 2 ^ 53) as Hsize.
  { assert (nonzero L_skeleton = [(0, 0); (0, 1); (1, 1)]%nat) as ->
      by (vm_compute; reflexivity).
    assert (Z.of_nat (length L_skeleton) = 18) as -> by (vm_compute; reflexivity).
    intros q Hq. assert (q.2 ≤ 1)%nat as Hq2.
    { repeat (apply elem_of_cons in Hq as [->|Hq]); simpl; [lia..|].
      by apply elem_of_nil in Hq. }
    change (2 ^ 53) with 9007199254740992. lia. }
  assert (skeleton_graph L_skeleton 2 = Ok (Some L_graph)) as Hg
    by (vm_compute; reflexivity).
  split; [exact Hg|].
  destruct (proj1 (@merged_vertices_rounded plain_geometry _)
              L_skeleton 2 2%Q true L_graph (212 # 100, 0 # 100)%Q Hg)
    as (p & Hp & Hv & _ & Hx & _).
  { vm_compute. apply list_elem_of_further, list_elem_of_here. }
  exists p. split; [exact Hp|]. split; [exact Hv|].
  exact (Hx (Hsize p (proj2 (elem_of_nonzero _ _) Hp))).
Defined.

(** [binary64] on a familiar value: the float written [0.1]. *)
Example binary64_tenth :
  (binary64 (1 # 10) == 3602879701896397 # 36028797018963968)%Q.
Proof. by vm_compute. Qed.

(** Where the exact product lies half-way between two hundredths the
    binary64 roundings decide.  In a raster of 81 rows at stride 2 the
    column 3 has the exact coordinate 6.075 and gets 6.07, the float
    product being just below 6.075; rounding the exact product to even
    would give 6.08.  In a raster of 25 rows at stride 1 the column 15 has
    the exact coordinate 15.625 and gets 15.63, not 15.62. *)
Example halfway_coordinate_follows_binary64 :
  scaled_nodes (set_on (blank 81 4) (0, 3)%nat) 2
  = Ok ([(3, 0)], [(607 # 100, 0 # 100)]) ∧
  (inject_Z 3 * (inject_Z 2 * (inject_Z 81 / inject_Z 80)) == 6075 # 1000)%Q ∧
  around 2 (6075 # 1000) = 608 # 100 ∧
  scaled_nodes (set_on (blank 25 16) (0, 15)%nat) 1
  = Ok ([(15, 0)], [(1563 # 100, 0 # 100)]) ∧
  (inject_Z 15 * (inject_Z 1 * (inject_Z 25 / inject_Z 24)) == 15625 # 1000)%Q ∧
  around 2 (15625 # 1000) = 1562 # 100.
Proof. split_and!; by vm_compute. Qed.

(** Both axes are scaled by the number of rows: in a raster of 3 rows and 5
    columns at stride 2 the last column gets [x = 12]. *)
Example columns_scaled_by_row_count :
  scaled_nodes (set_on (blank 3 5) (0, 4)%nat) 2
  = Ok ([(4, 0)], [(1200 # 100, 0 # 100)]).
Proof. by vm_compute. Qed.

(** ** Probability fusion *)

(** C6.  For a single model the stride returned is 2: the model stride 4
    passes the divisibility assertion of the x2 upscale and is halved.  The
    call returns (with stride 2) whenever the prediction image of the tile
    can be opened and the model is registered; a stride that 2 does not
    divide fails the assertion with [AssertionError]. *)
Theorem atomic_stride_is_two `{World} (model_root iid : string)
    (green_weight : Q) :
  contains_char " " model_root = false →
  (∀ P stride,
     get_raster_probability model_root iid green_weight = Ok (P, stride) →
     stride = Some 2) ∧
  (∀ path im cfg,
     iid_path iid ("rgb_pred_" +:+ model_root +:+ "_png") None = Ok path →
     Image_open path = Some im →
     model_database !! model_root = Some cfg →
     get_raster_probability model_root iid green_weight
     = Ok (class_weighting (resize_bilinear im (length im * 2)) green_weight,
           Some 2)) ∧
  (∀ stride model_product P_rgb,
     stride `mod` 2 ≠ 0 →
     upscale_prediction stride 2 iid model_product P_rgb green_weight
     = Raise AssertionError) ∧
  (∀ stride model_product P_rgb P stride',
     upscale_prediction stride 2 iid model_product P_rgb green_weight
       = Ok (P, stride') →
     stride = 2 * stride').
Proof.
  intros Hatomic. split_and!.
  - intros P stride. unfold get_raster_probability. rewrite Hatomic.
    destruct (get_raster_probability_atomic _ _ _) as [[P' s]|] eqn:Hget;
      cbn [mbind result_bind]; [|done].
    intros [= _ <-]. by rewrite (atomic_stride _ _ _ _ _ Hget).
  - intros path im cfg Hpath Him Hcfg.
    unfold get_raster_probability. rewrite Hatomic.
    by rewrite (atomic_returns _ _ _ _ _ _ Hpath Him Hcfg).
  - intros stride model_product P_rgb. apply upscale_prediction_odd.
  - intros stride model_product P_rgb P stride'. unfold upscale_prediction.
    case_bool_decide as Hmod; [done|].
    destruct (iid_path _ _ _) as [path|]; cbn [mbind result_bind]; [|done].
    destruct (open_image path) as [im|]; cbn [mbind result_bind]; [|done].
    intros [= _ <-].
    assert (stride `mod` 2 = 0) as Hz by lia.
    pose proof (Z.div_mod stride 2 ltac:(lia)). lia.
Qed.

Lemma atomic_stride_is_two_witness :
  contains_char " " "m" = false ∧
  snd <$> @get_raster_probability world_two_tiles "m" "a" (15 # 100)
  = Ok (Some 2).
Proof.
  assert (contains_char " " "m" = false) as Hatomic by reflexivity.
  split; [exact Hatomic|].
  destruct (@get_raster_probability world_two_tiles "m" "a" (15 # 100))
    as [[P stride]|e] eqn:Hget.
  - cbn. f_equal.
    exact (proj1 (@atomic_stride_is_two world_two_tiles "m" "a" (15 # 100)
                    Hatomic) P stride Hget).
  - exfalso. vm_compute in Hget. discriminate Hget.
Defined.

(** Two registered models fused with equal weights keep the stride 2. *)
Example composite_stride :
  snd <$> @get_raster_probability world_two_tiles "m m" "a" (15 # 100)
  = Ok (Some 2).
Proof. vm_compute. reflexivity. Qed.

(** ** Submission writer *)

(** C7.  When every tile is processed, [make_submission] writes the header
    [ImageId,WKT_Pix] and then, tile after tile in the order of the
    directory listing, the rows of the tile: the one row
    [tile_id,"LINESTRING EMPTY"] for no polyline, and otherwise one row
    [tile_id,"<wkt>"] per polyline in the order of the vectorizer. *)
Theorem submission_rows_per_tile `{World} `{Geometry}
    (model_root fold csv_path : string) (shapes : list Shape) :
  Forall2 (λ iid shape, postprocess model_root (splitext_root iid) = Ok shape)
    (listdir "spacenet/Test") shapes →
  make_submission model_root fold csv_path
  = Ok ("ImageId,WKT_Pix"
        :: concat (zip_with (λ iid shape, tile_rows (splitext_root iid) shape)
                     (listdir "spacenet/Test") shapes)).
Proof.
  intros Hall. unfold make_submission.
  by rewrite (loop_Ok model_root _ shapes [] Hall).
Qed.

Lemma submission_rows_per_tile_witness :
  Forall2 (λ iid shape,
             @postprocess world_two_tiles plain_geometry "m" (splitext_root iid)
             = Ok shape)
    ["a.tif"; "b.tif"] [shape_a; MultiLineString []] ∧
  @make_submission world_two_tiles plain_geometry "m" "test" "out.csv"
  = Ok ("ImageId,WKT_Pix"
        :: @tile_rows plain_geometry "a" shape_a
        ++ ["b," +:+ dquote +:+ "LINESTRING EMPTY" +:+ dquote]).
Proof.
  assert (Forall2 (λ iid shape,
             @postprocess world_two_tiles plain_geometry "m" (splitext_root iid)
             = Ok shape)
            (@listdir world_two_tiles "spacenet/Test")
            [shape_a; MultiLineString []]) as Hall.
  { repeat constructor; vm_compute; reflexivity. }
  split; [exact Hall|].
  exact (@submission_rows_per_tile world_two_tiles plain_geometry
           "m" "test" "out.csv" _ Hall).
Defined.

Example tile_a_rows :
  length (geoms_of shape_a) = 16%nat ∧
  length (@tile_rows plain_geometry "a" shape_a) = 16%nat ∧
  head (@tile_rows plain_geometry "a" shape_a)
  = Some ("a," +:+ dquote +:+ "LINESTRING (12.8 12.8, 14.93 12.8)" +:+ dquote).
Proof. split_and!; vm_compute; reflexivity. Qed.

(** C5, as the code has it.  [make_submission] has no handler: the first
    tile whose processing raises an exception ends the run with that
    exception, before the output file is opened, so that no row is written
    for any tile, processed or not. *)
Theorem failed_tile_aborts_submission `{World} `{Geometry}
    (model_root fold csv_path : string) (pre post : list string)
    (iid : string) (e : exn) :
  listdir "spacenet/Test" = pre ++ iid :: post →
  Forall (λ t, ∃ shape, postprocess model_root (splitext_root t) = Ok shape)
    pre →
  postprocess model_root (splitext_root iid) = Raise e →
  make_submission model_root fold csv_path = Raise e.
Proof.
  intros Hdir Hpre Hfail. unfold make_submission. rewrite Hdir.
  by rewrite (loop_fails model_root pre iid post e Hpre Hfail).
Qed.

(** Tile [a] has no prediction image, tile [b] is fine on its own: the run
    raises [FileNotFoundError] and the row of [b] is not written. *)
Lemma missing_tile_loses_all_rows :
  @postprocess world_missing_a plain_geometry "m" "a" = Raise FileNotFoundError ∧
  @postprocess world_missing_a plain_geometry "m" "b" = Ok (MultiLineString []) ∧
  @make_submission world_missing_a plain_geometry "m" "test" "out.csv"
  = Raise FileNotFoundError.
Proof. split_and!; vm_compute; reflexivity. Qed.

(** The failure may also come last: the rows of the tiles already
    processed are lost as well. *)
Lemma failed_tile_aborts_submission_witness :
  @listdir world_missing_last "spacenet/Test" = ["b.tif"] ++ "a.tif" :: [] ∧
  @postprocess world_missing_last plain_geometry "m" (splitext_root "b.tif")
  = Ok (MultiLineString []) ∧
  @make_submission world_missing_last plain_geometry "m" "test" "out.csv"
  = Raise FileNotFoundError.
Proof.
  assert (@postprocess world_missing_last plain_geometry "m"
            (splitext_root "b.tif") = Ok (MultiLineString [])) as Hb
    by (vm_compute; reflexivity).
  split_and!; [reflexivity|exact Hb|].
  apply (@failed_tile_aborts_submission world_missing_last plain_geometry
           "m" "test" "out.csv" ["b.tif"] [] "a.tif" FileNotFoundError);
    [reflexivity|repeat constructor; eauto|vm_compute; reflexivity].
Defined.
